(** * clause-sense backend: the search route of [src/index.ts]

    A shallow embedding of the request handler [app.post('/api/search')]
    and of the functions it relies on ([cosine], the clause selection, the
    two defensive JSON parses, the audit append), followed by the
    properties of the retrieval-and-adjudication pipeline.

    Conventions of the embedding.
    - A JavaScript number is a [number]: a real, or [NaN].  Finite doubles
      are read as the reals they denote; rounding and overflow of binary64
      arithmetic are not represented.
    - A JavaScript string is a [string]; each character stands for one
      code unit, so the embedding covers code units below 256.
    - A [throw] is the [Throw] outcome of the error monad [Outcome]; a
      [try]/[catch] is a match on the outcome.
    - The services the handler awaits (chat completion, embedding model,
      audit store), the loaded collection and the runtime's [JSON.parse]
      are the fields of a [World]. *)

From Stdlib Require Import Reals Lra Lia List String Ascii ZArith Bool.
From Stdlib Require Import Sorting.Sorted Sorting.Permutation.
From Stdlib Require Import DecimalString DecimalNat Decimal.
From Stdlib Require Floats.
Import ListNotations.

Open Scope string_scope.
Open Scope list_scope.

Set Warnings "-register-all".

(* ================================================================== *)
(** * Numbers                                                          *)
(* ================================================================== *)

Module JSNumber.

(** A JavaScript number as the selection and the route see it: a real,
    or NaN.  The rounding and the infinities of binary64 are not part of
    this type; [cosine] is given a second time, on floats, in
    [Binary64]. *)
Inductive number : Type :=
| NaN
| Num (r : R).

Definition zero : number := Num 0%R.

(** Arithmetic propagates NaN. *)
Definition add (x y : number) : number :=
  match x, y with
  | Num a, Num b => Num (a + b)%R
  | _, _ => NaN
  end.

Definition sub (x y : number) : number :=
  match x, y with
  | Num a, Num b => Num (a - b)%R
  | _, _ => NaN
  end.

Definition mul (x y : number) : number :=
  match x, y with
  | Num a, Num b => Num (a * b)%R
  | _, _ => NaN
  end.

(** [x / y].  The handler divides once, in [cosine], by a divisor that
    is positive whenever it is a real (lemma [denominator_positive]). *)
Definition div (x y : number) : number :=
  match x, y with
  | Num a, Num b => Num (a / b)%R
  | _, _ => NaN
  end.

(** [x ** 2]. *)
Definition square (x : number) : number :=
  match x with
  | Num a => Num (a ^ 2)%R
  | NaN => NaN
  end.

(** [Math.sqrt]: NaN below zero. *)
Definition Math_sqrt (x : number) : number :=
  match x with
  | Num a => match Rcase_abs a with
             | left _ => NaN
             | right _ => Num (sqrt a)
             end
  | NaN => NaN
  end.

(** [x >= y]: false as soon as one side is NaN. *)
Definition geb (x y : number) : bool :=
  match x, y with
  | Num a, Num b => if Rle_dec b a then true else false
  | _, _ => false
  end.

(** [x > y]. *)
Definition gtb (x y : number) : bool :=
  match x, y with
  | Num a, Num b => if Rlt_dec b a then true else false
  | _, _ => false
  end.

(** [x === y] on numbers: NaN equals nothing. *)
Definition strict_eqb (x y : number) : bool :=
  match x, y with
  | Num a, Num b => if Req_dec_T a b then true else false
  | _, _ => false
  end.

(** ToBoolean on a number: 0 and NaN are falsy. *)
Definition falsy (x : number) : bool :=
  match x with
  | Num a => if Req_dec_T a 0 then true else false
  | NaN => true
  end.

Definition of_nat (n : nat) : number := Num (INR n).


(** The order of the spec's statements, on numbers. *)
Definition less (x y : number) : Prop :=
  match x, y with
  | Num a, Num b => (a < b)%R
  | _, _ => False
  end.

Definition at_least (x y : number) : Prop :=
  match x, y with
  | Num a, Num b => (a >= b)%R
  | _, _ => False
  end.

(** An array of numbers read at an index inside an arithmetic
    expression: past the end the read is [undefined], which arithmetic
    turns into NaN. *)
Definition at_index (v : list number) (i : nat) : number := nth i v NaN.

Definition reals (v : list R) : list number := map Num v.

End JSNumber.

Import JSNumber.

(* ================================================================== *)
(** * Similarity                                                       *)
(* ================================================================== *)

Definition MIN_SIMILARITY : number := Num 0.25%R.
Definition TOP_K : nat := 6.

(** [1e-10], the guard added to the divisor. *)
Definition EPSILON : number := Num 1e-10%R.

(** One turn of the loop of [cosine]: the accumulators [dot], [na], [nb]
    after index [i]. *)
Definition cosine_step (a b : list number)
    (acc : number * number * number) (i : nat) : number * number * number :=
  let '(dot, na, nb) := acc in
  (add dot (mul (at_index a i) (at_index b i)),
   add na (square (at_index a i)),
   add nb (square (at_index b i))).

(** The accumulators after the turns [0 .. k-1], from
    [let dot = 0, na = 0, nb = 0]. *)
Definition cosine_upto (a b : list number) (k : nat) : number * number * number :=
  fold_left (cosine_step a b) (seq 0 k) (zero, zero, zero).

(** The loop [for (let i = 0; i < a.length; i++)]. *)
Definition cosine_loop (a b : list number) : number * number * number :=
  cosine_upto a b (List.length a).

(** The divisor [Math.sqrt(na) * Math.sqrt(nb) + 1e-10]. *)
Definition denominator (na nb : number) : number :=
  add (mul (Math_sqrt na) (Math_sqrt nb)) EPSILON.

Definition cosine (a b : list number) : number :=
  let '(dot, na, nb) := cosine_loop a b in
  div dot (denominator na nb).

(** The same function in the arithmetic the engine runs it in: every
    number is a binary64 float, every operation rounds, and a sum or a
    product too large for the format is an infinity.  The retrieval
    uses the scores only through comparisons and is stated on [number];
    what [cosine] itself returns is stated on [Binary64.cosine]. *)
Module Binary64.

Import Floats.
Local Open Scope float_scope.

(** [1e-10]: the float nearest to it. *)
Definition EPSILON : float := 0x1.b7cdfd9d7bdbbp-34.

(** [v[i]] inside an arithmetic expression: past the end the read is
    [undefined], which arithmetic turns into NaN. *)
Definition at_index (v : list float) (i : nat) : float := nth i v nan.

(** [x ** 2], as the rounded product.  An engine may approximate the
    power; on a zero, on NaN, on an infinity and on a value whose square
    overflows it returns what the product returns. *)
Definition square (x : float) : float := x * x.

Definition cosine_step (a b : list float)
    (acc : float * float * float) (i : nat) : float * float * float :=
  let '(dot, na, nb) := acc in
  (dot + at_index a i * at_index b i,
   na + square (at_index a i),
   nb + square (at_index b i)).

Definition cosine_upto (a b : list float) (k : nat) : float * float * float :=
  fold_left (cosine_step a b) (seq 0 k) (zero, zero, zero).

Definition cosine_loop (a b : list float) : float * float * float :=
  cosine_upto a b (List.length a).

Definition denominator (na nb : float) : float :=
  sqrt na * sqrt nb + EPSILON.

Definition cosine (a b : list float) : float :=
  let '(dot, na, nb) := cosine_loop a b in
  dot / denominator na nb.




(** [100000]. *)
Definition large : float := 0x1.86ap+16.

End Binary64.

(* ================================================================== *)
(** * Strings                                                          *)
(* ================================================================== *)

Module JSString.

(** White space and line terminators removed by [String.prototype.trim],
    among the code units below 256: TAB, LF, VT, FF, CR, SP, NBSP. *)
Definition is_whitespace (c : ascii) : bool :=
  match nat_of_ascii c with
  | 9 | 10 | 11 | 12 | 13 | 32 | 160 => true
  | _ => false
  end.

Fixpoint trim_start (s : string) : string :=
  match s with
  | String c r => if is_whitespace c then trim_start r else s
  | EmptyString => EmptyString
  end.

Fixpoint trim_end (s : string) : string :=
  match s with
  | EmptyString => EmptyString
  | String c r =>
      match trim_end r with
      | EmptyString => if is_whitespace c then EmptyString else String c EmptyString
      | r' => String c r'
      end
  end.

(** [s.trim()]. *)
Definition trim (s : string) : string := trim_end (trim_start s).

(** [s.replace(/pat/g, '')] for a literal, non-empty [pat]: the matches
    are found left to right and do not overlap.  [skip] counts what is
    left to drop of the match in progress. *)
Fixpoint remove_from (pat : string) (skip : nat) (s : string) : string :=
  match s with
  | EmptyString => EmptyString
  | String c r =>
      match skip with
      | S k => remove_from pat k r
      | O => if prefix pat s
             then remove_from pat (String.length pat - 1) r
             else String c (remove_from pat 0 r)
      end
  end.

Definition remove_all (pat s : string) : string := remove_from pat 0 s.

(** [s.indexOf(c)] for a one-character needle: -1 when absent. *)
Fixpoint indexOf (c : ascii) (s : string) : Z :=
  match s with
  | EmptyString => (-1)%Z
  | String d r =>
      if Ascii.eqb c d then 0%Z
      else match indexOf c r with
           | Zneg _ => (-1)%Z
           | i => (i + 1)%Z
           end
  end.

Fixpoint drop (n : nat) (s : string) : string :=
  match n, s with
  | S k, String _ r => drop k r
  | _, _ => s
  end.

(** [s.slice(start)]: a negative [start] counts from the end. *)
Definition slice (s : string) (start : Z) : string :=
  let len := Z.of_nat (String.length s) in
  let from := if (start <? 0)%Z then Z.max (len + start) 0 else Z.min start len in
  drop (Z.to_nat from) s.

(** ToBoolean on a string. *)
Definition falsy (s : string) : bool :=
  match s with
  | EmptyString => true
  | _ => false
  end.

End JSString.

(* ================================================================== *)
(** * Exceptions                                                       *)
(* ================================================================== *)

(** A thrown [Error] object. *)
Record exn : Type := { name : string; message : string }.

(** The runtime's own errors.  Their message is the engine's wording;
    nothing below depends on it. *)
Definition TypeError (msg : string) : exn := {| name := "TypeError"; message := msg |}.
Definition SyntaxError (msg : string) : exn := {| name := "SyntaxError"; message := msg |}.

(** [err.message || String(err)]: with an empty message,
    [Error.prototype.toString] gives the name. *)
Definition error_text (err : exn) : string :=
  if JSString.falsy (message err) then name err else message err.

Inductive Outcome (A : Type) : Type :=
| Normal (a : A)
| Throw (e : exn).

Arguments Normal {A} a.
Arguments Throw {A} e.

Definition bind {A B : Type} (m : Outcome A) (k : A -> Outcome B) : Outcome B :=
  match m with
  | Normal a => k a
  | Throw e => Throw e
  end.

Notation "x <- m ;; k" := (bind m (fun x => k))
  (at level 61, m at next level, right associativity).

(** [try { m } catch { fallback }]. *)
Definition try_catch {A : Type} (m : Outcome A) (fallback : A) : A :=
  match m with
  | Normal a => a
  | Throw _ => fallback
  end.

(* ================================================================== *)
(** * Values                                                           *)
(* ================================================================== *)

(** The values the handler sees: what [JSON.parse] and [express.json()]
    build.  An array also carries the named properties assigned to it. *)
Inductive JSValue : Type :=
| JUndefined
| JNull
| JBool (b : bool)
| JNumber (n : number)
| JString (s : string)
| JArray (elems : list JSValue) (named : list (string * JSValue))
| JObject (props : list (string * JSValue)).

Definition Props : Type := list (string * JSValue).

Fixpoint lookup (k : string) (props : Props) : option JSValue :=
  match props with
  | [] => None
  | (k', v) :: rest => if String.eqb k k' then Some v else lookup k rest
  end.

(** Assignment to a property: overwritten in place, or added last. *)
Fixpoint update (k : string) (v : JSValue) (props : Props) : Props :=
  match props with
  | [] => [(k, v)]
  | (k', v') :: rest =>
      if String.eqb k k' then (k', v) :: rest else (k', v') :: update k v rest
  end.

Definition own (k : string) (props : Props) : JSValue :=
  match lookup k props with
  | Some v => v
  | None => JUndefined
  end.

(** [v.k] for the names the handler reads ([query], [clauses_used],
    [length], [parsed_query], [decision]): none of them is inherited, and
    none is an array index. *)
Definition get_prop (v : JSValue) (k : string) : Outcome JSValue :=
  match v with
  | JUndefined | JNull =>
      Throw (TypeError ("Cannot read properties of undefined or null (reading '" ++ k ++ "')"))
  | JObject props => Normal (own k props)
  | JArray elems named =>
      if String.eqb k "length" then Normal (JNumber (of_nat (List.length elems)))
      else Normal (own k named)
  | JString s =>
      if String.eqb k "length" then Normal (JNumber (of_nat (String.length s)))
      else Normal JUndefined
  | JBool _ | JNumber _ => Normal JUndefined
  end.

(** [v.k = x] in strict mode (the file is a module), for a name that is
    neither [length] nor an index: objects and arrays take the property,
    anything else throws. *)
Definition set_prop (v : JSValue) (k : string) (x : JSValue) : Outcome JSValue :=
  match v with
  | JObject props => Normal (JObject (update k x props))
  | JArray elems named => Normal (JArray elems (update k x named))
  | _ => Throw (TypeError ("Cannot create property '" ++ k ++ "'"))
  end.

(** ToBoolean. *)
Definition falsy (v : JSValue) : bool :=
  match v with
  | JUndefined | JNull => true
  | JBool b => negb b
  | JNumber n => JSNumber.falsy n
  | JString s => JSString.falsy s
  | JArray _ _ | JObject _ => false
  end.

(** [v === 0]. *)
Definition is_zero (v : JSValue) : bool :=
  match v with
  | JNumber n => strict_eqb n zero
  | _ => false
  end.

(** [typeof v === 'string']. *)
Definition is_string (v : JSValue) : bool :=
  match v with
  | JString _ => true
  | _ => false
  end.

(* ================================================================== *)
(** * Clause retrieval                                                 *)
(* ================================================================== *)

(** A record of [embeddings.json], as the indexer writes it. *)
Module Fragment.
Record t : Type := {
  dataset : string;
  id : string;
  text : string;
  embedding : list number
}.
End Fragment.

(** An element of [scored]. *)
Module Scored.
Record t : Type := {
  score : number;
  item : Fragment.t
}.
End Scored.

(** An element of [usedClauses]. *)
Module Clause.
Record t : Type := {
  dataset : string;
  clause_ref : string;
  excerpt : string;
  score : number
}.
End Clause.

(** [Array.prototype.sort(cmp)]: a stable sort.  [x] comes before the
    sorted [l] in the array; it moves past [y] only when [cmp(x, y) > 0].
    With a comparator that returns NaN the order is the engine's choice;
    this is one such choice. *)
Fixpoint insert {A : Type} (cmp : A -> A -> number) (x : A) (l : list A) : list A :=
  match l with
  | [] => [x]
  | y :: l' => if gtb (cmp x y) zero then y :: insert cmp x l' else x :: l
  end.

Definition sort {A : Type} (cmp : A -> A -> number) (l : list A) : list A :=
  fold_right (insert cmp) [] l.

(** [(a, b) => b.score - a.score]. *)
Definition by_score_desc (a b : Scored.t) : number :=
  sub (Scored.score b) (Scored.score a).

(** [embeddings.map(e => ({ score: cosine(qEmb, e.embedding), item: e }))
      .sort((a, b) => b.score - a.score)]. *)
Definition scored (qEmb : list number) (embeddings : list Fragment.t) : list Scored.t :=
  sort by_score_desc
    (map (fun e => {| Scored.score := cosine qEmb (Fragment.embedding e);
                      Scored.item := e |}) embeddings).



(** [s => ({ dataset: s.item.dataset, clause_ref: s.item.id,
            excerpt: s.item.text, score: s.score })]. *)
Definition to_clause (s : Scored.t) : Clause.t :=
  {| Clause.dataset := Fragment.dataset (Scored.item s);
     Clause.clause_ref := Fragment.id (Scored.item s);
     Clause.excerpt := Fragment.text (Scored.item s);
     Clause.score := Scored.score s |}.

(** [c => c.excerpt && c.excerpt.trim().length > 10]. *)
Definition long_enough (c : Clause.t) : bool :=
  negb (JSString.falsy (Clause.excerpt c))
  && (10 <? String.length (JSString.trim (Clause.excerpt c)))%nat.

(** The first value of [usedClauses]: threshold, [slice(0, TOP_K)],
    projection, length filter. *)
Definition primary_selection (sc : list Scored.t) : list Clause.t :=
  filter long_enough
    (map to_clause
      (firstn TOP_K
        (filter (fun s => geb (Scored.score s) MIN_SIMILARITY) sc))).

(** The value assigned when the first one is empty. *)
Definition fallback_selection (sc : list Scored.t) : list Clause.t :=
  map to_clause (firstn TOP_K sc).

(** [usedClauses] once the [if (usedClauses.length === 0)] has run. *)
Definition select_clauses (sc : list Scored.t) : list Clause.t :=
  match primary_selection sc with
  | [] => fallback_selection sc
  | used => used
  end.

(** Step 2 of the handler, from the query embedding on. *)
Definition usedClauses (qEmb : list number) (embeddings : list Fragment.t) : list Clause.t :=
  select_clauses (scored qEmb embeddings).

(** A clause, and [usedClauses], as values. *)
Definition clause_value (c : Clause.t) : JSValue :=
  JObject [("dataset", JString (Clause.dataset c));
           ("clause_ref", JString (Clause.clause_ref c));
           ("excerpt", JString (Clause.excerpt c));
           ("score", JNumber (Clause.score c))].

Definition clauses_value (cs : list Clause.t) : JSValue :=
  JArray (map clause_value cs) [].

(* ================================================================== *)
(** * The world around the handler                                     *)
(* ================================================================== *)

(** What the handler reads of a chat completion:
    [choices[0].message.content], a string or null. *)
Record Choice : Type := { content : option string }.
Record ChatCompletion : Type := { choices : list Choice }.

(** The two requests sent to the model.  A prompt is fixed text around
    the interpolated data, so a request is identified by that data. *)
Inductive ChatRequest : Type :=
| ParseRequest (query : string)
| DecisionRequest (parsedQuery : JSValue) (used : list Clause.t).

(** The document handed to [QueryLog.create]. *)
Module AuditRecord.
Record t : Type := {
  query : string;
  parsed_query : JSValue;
  decision : JSValue;
  clauses_used : JSValue
}.
End AuditRecord.

Record World : Type := {
  (** [client.chat.completions.create] *)
  chat_completions_create : ChatRequest -> Outcome ChatCompletion;
  (** [embedText] *)
  embedText : string -> Outcome (list number);
  (** [QueryLog.create] *)
  QueryLog_create : AuditRecord.t -> Outcome unit;
  (** [JSON.parse] *)
  JSON_parse : string -> Outcome JSValue;
  (** the array [embeddings] loaded at start-up *)
  embeddings : list Fragment.t
}.

(** What [res.status(..).json(..)] sends. *)
Record Response : Type := { status : nat; body : JSValue }.

(* ================================================================== *)
(** * The search route                                                 *)
(* ================================================================== *)

(** [resp.choices[0].message.content || '']. *)
Definition message_content (resp : ChatCompletion) : Outcome string :=
  match choices resp with
  | [] => Throw (TypeError "Cannot read properties of undefined (reading 'message')")
  | c :: _ => Normal (match content c with
                      | Some s => s
                      | None => EmptyString
                      end)
  end.

(** [txt.replace(/```json/g, '').replace(/```/g, '').trim()]. *)
Definition strip_fences (txt : string) : string :=
  JSString.trim (JSString.remove_all "```" (JSString.remove_all "```json" txt)).

(** The body of the first inner [try]. *)
Definition parse_query (W : World) (parseResp : ChatCompletion) : Outcome JSValue :=
  txt <- message_content parseResp ;;
  JSON_parse W (strip_fences txt).

(** Step 1: [parsedQuery] after the [try]/[catch]. *)
Definition parsedQuery (W : World) (parseResp : ChatCompletion) : JSValue :=
  try_catch (parse_query W parseResp) (JObject []).

(** The body of the second inner [try]. *)
Definition parse_decision (W : World) (decisionResp : ChatCompletion) : Outcome JSValue :=
  txt <- message_content decisionResp ;;
  let txt := strip_fences txt in
  JSON_parse W (JSString.slice txt (JSString.indexOf "{" txt)).

(** The object built in the [catch]. *)
Definition fallback_decision (pq : JSValue) (used : list Clause.t) : JSValue :=
  JObject [("parsed_query", pq);
           ("decision", JObject [("status", JString "Pending");
                                 ("amount", JNull);
                                 ("justification", JString "Could not parse LLM output")]);
           ("clauses_used", clauses_value used)].

(** [if (!finalJson.clauses_used || finalJson.clauses_used.length === 0)
      finalJson.clauses_used = usedClauses]. *)
Definition repair (finalJson : JSValue) (used : list Clause.t) : Outcome JSValue :=
  cu <- get_prop finalJson "clauses_used" ;;
  if falsy cu then set_prop finalJson "clauses_used" (clauses_value used)
  else
    len <- get_prop cu "length" ;;
    if is_zero len then set_prop finalJson "clauses_used" (clauses_value used)
    else Normal finalJson.

(** Step 3 after the completion: [finalJson] as it stands before the
    audit append. *)
Definition adjudicate (W : World) (decisionResp : ChatCompletion)
    (pq : JSValue) (used : list Clause.t) : Outcome JSValue :=
  repair (try_catch (parse_decision W decisionResp) (fallback_decision pq used)) used.

(** The argument of [QueryLog.create]. *)
Definition audit_record (query : string) (finalJson : JSValue) : Outcome AuditRecord.t :=
  pq <- get_prop finalJson "parsed_query" ;;
  d <- get_prop finalJson "decision" ;;
  cu <- get_prop finalJson "clauses_used" ;;
  Normal {| AuditRecord.query := query;
            AuditRecord.parsed_query := pq;
            AuditRecord.decision := d;
            AuditRecord.clauses_used := cu |}.

(** Steps 1 to 3: everything up to the assembled [finalJson]. *)
Definition assemble (W : World) (query : string) : Outcome JSValue :=
  parseResp <- chat_completions_create W (ParseRequest query) ;;
  let pq := parsedQuery W parseResp in
  qEmb <- embedText W query ;;
  let used := usedClauses qEmb (embeddings W) in
  decisionResp <- chat_completions_create W (DecisionRequest pq used) ;;
  adjudicate W decisionResp pq used.

(** Steps 1 to 5.  The result pairs the response with the records
    appended to the audit store. *)
Definition pipeline (W : World) (query : string)
    : Outcome (Response * list AuditRecord.t) :=
  finalJson <- assemble W query ;;
  record <- audit_record query finalJson ;;
  _ <- QueryLog_create W record ;;
  Normal ({| status := 200; body := finalJson |}, [record]).

Definition bad_request : Response :=
  {| status := 400; body := JObject [("error", JString "query (string) is required")] |}.

Definition server_error (err : exn) : Response :=
  {| status := 500; body := JObject [("error", JString (error_text err))] |}.

Definition string_of (v : JSValue) : string :=
  match v with
  | JString s => s
  | _ => EmptyString
  end.

(** The body of the outer [try], on [req.body]. *)
Definition search_try (W : World) (req_body : JSValue)
    : Outcome (Response * list AuditRecord.t) :=
  query <- get_prop req_body "query" ;;
  if falsy query || negb (is_string query)
  then Normal (bad_request, [])
  else pipeline W (string_of query).

(** The route [POST /api/search]. *)
Definition search (W : World) (req_body : JSValue) : Response * list AuditRecord.t :=
  match search_try W req_body with
  | Normal r => r
  | Throw err => (server_error err, [])
  end.

(* ================================================================== *)
(** * A reference [JSON.parse]                                         *)
(* ================================================================== *)

(** The JSON grammar of ECMA-404, used to run the handler on concrete
    texts.  The properties of the handler are proved for every
    [JSON_parse]; this one instantiates them.  A [\u] escape is accepted
    for code units below 256. *)
Module JSON.

Local Open Scope char_scope.

Definition is_ws (c : ascii) : bool :=
  match c with
  | " " | "009" | "010" | "013" => true
  | _ => false
  end.

Fixpoint skip_ws (s : string) : string :=
  match s with
  | String c r => if is_ws c then skip_ws r else s
  | EmptyString => EmptyString
  end.

Definition digit (c : ascii) : option Z :=
  let n := nat_of_ascii c in
  if ((48 <=? n) && (n <=? 57))%nat then Some (Z.of_nat (n - 48)) else None.

Definition hex (c : ascii) : option nat :=
  let n := nat_of_ascii c in
  if ((48 <=? n) && (n <=? 57))%nat then Some (n - 48)%nat
  else if ((65 <=? n) && (n <=? 70))%nat then Some (n - 55)%nat
  else if ((97 <=? n) && (n <=? 102))%nat then Some (n - 87)%nat
  else None.

(** The digits at the head of [s]: their value after [acc], how many
    they are, and the rest. *)
Fixpoint digits (s : string) (acc : Z) (count : nat) : Z * nat * string :=
  match s with
  | String c r =>
      match digit c with
      | Some d => digits r (10 * acc + d)%Z (S count)
      | None => (acc, count, s)
      end
  | EmptyString => (acc, count, s)
  end.

(** [m * 10 ^ p]. *)
Definition decimal (m p : Z) : number :=
  if (0 <=? p)%Z then Num (IZR (m * 10 ^ p))
  else Num (IZR m / IZR (10 ^ (- p)))%R.

Definition fraction (s : string) (int : Z) : option (Z * nat * string) :=
  match s with
  | String "." r =>
      match digits r int 0 with
      | (_, O, _) => None
      | found => Some found
      end
  | _ => Some (int, O, s)
  end.

Definition exponent (s : string) : option (Z * string) :=
  match s with
  | String ("e" | "E") r =>
      let '(sign, r1) :=
        match r with
        | String "+" r' => (1%Z, r')
        | String "-" r' => ((-1)%Z, r')
        | _ => (1%Z, r)
        end in
      match digits r1 0 0 with
      | (_, O, _) => None
      | (e, _, r2) => Some ((sign * e)%Z, r2)
      end
  | _ => Some (0%Z, s)
  end.

(** A number token: an optional minus, an integer part without leading
    zero, an optional fraction, an optional exponent. *)
Definition number_token (s : string) : option (number * string) :=
  let '(sign, s1) :=
    match s with
    | String "-" r => ((-1)%Z, r)
    | _ => (1%Z, s)
    end in
  let int :=
    match s1 with
    | String "0" r => Some (0%Z, r)
    | _ => match digits s1 0 0 with
           | (_, O, _) => None
           | (m, _, r) => Some (m, r)
           end
    end in
  match int with
  | None => None
  | Some (m, s2) =>
      match fraction s2 m with
      | None => None
      | Some (m', k, s3) =>
          match exponent s3 with
          | None => None
          | Some (e, s4) => Some (decimal (sign * m') (e - Z.of_nat k), s4)
          end
      end
  end.

Definition escape (c : ascii) : option ascii :=
  match c with
  | "034" => Some "034"
  | "\" => Some "\"
  | "/" => Some "/"
  | "b" => Some "008"
  | "f" => Some "012"
  | "n" => Some "010"
  | "r" => Some "013"
  | "t" => Some "009"
  | _ => None
  end.

Definition consed (c : ascii) (r : option (string * string)) : option (string * string) :=
  match r with
  | Some (str, rest) => Some (String c str, rest)
  | None => None
  end.

(** The characters of a string token after its opening quote. *)
Fixpoint string_token (s : string) : option (string * string) :=
  match s with
  | EmptyString => None
  | String "034" r => Some (EmptyString, r)
  | String "\" (String "u" (String "0" (String "0" (String h1 (String h2 r))))) =>
      match hex h1, hex h2 with
      | Some a, Some b => consed (ascii_of_nat (16 * a + b)) (string_token r)
      | _, _ => None
      end
  | String "\" (String e r) =>
      match escape e with
      | Some c => consed c (string_token r)
      | None => None
      end
  | String "\" EmptyString => None
  | String c r =>
      if (nat_of_ascii c <? 32)%nat then None else consed c (string_token r)
  end.

Definition literal (word : string) (v : JSValue) (s : string) : option (JSValue * string) :=
  if prefix word s then Some (v, JSString.drop (String.length word) s) else None.

Section Composite.
Variable value : string -> option (JSValue * string).

(** The elements of an array after the first one was found missing
    a closing bracket. *)
Fixpoint elements (fuel : nat) (s : string) : option (list JSValue * string) :=
  match fuel with
  | O => None
  | S f =>
      match value s with
      | None => None
      | Some (v, r) =>
          match skip_ws r with
          | String "]" r' => Some ([v], r')
          | String "," r' =>
              match elements f r' with
              | Some (vs, r'') => Some (v :: vs, r'')
              | None => None
              end
          | _ => None
          end
      end
  end.

(** The members of an object; a repeated key keeps its place and
    takes the last value. *)
Fixpoint members (fuel : nat) (s : string) (acc : Props) : option (Props * string) :=
  match fuel with
  | O => None
  | S f =>
      match skip_ws s with
      | String "034" r =>
          match string_token r with
          | None => None
          | Some (k, r1) =>
              match skip_ws r1 with
              | String ":" r2 =>
                  match value r2 with
                  | None => None
                  | Some (v, r3) =>
                      match skip_ws r3 with
                      | String "}" r4 => Some (update k v acc, r4)
                      | String "," r4 => members f r4 (update k v acc)
                      | _ => None
                      end
                  end
              | _ => None
              end
          end
      | _ => None
      end
  end.
End Composite.

(** An array after its opening bracket. *)
Definition array_body (value : string -> option (JSValue * string)) (r : string)
    : option (JSValue * string) :=
  match skip_ws r with
  | String "]" r' => Some (JArray [] [], r')
  | r0 =>
      match elements value (String.length r0) r0 with
      | Some (vs, r') => Some (JArray vs [], r')
      | None => None
      end
  end.

(** An object after its opening brace. *)
Definition object_body (value : string -> option (JSValue * string)) (r : string)
    : option (JSValue * string) :=
  match skip_ws r with
  | String "}" r' => Some (JObject [], r')
  | r0 =>
      match members value (String.length r0) r0 [] with
      | Some (ps, r') => Some (JObject ps, r')
      | None => None
      end
  end.

(** A value, after optional white space.  [fuel] bounds the nesting. *)
Fixpoint value (fuel : nat) (s : string) : option (JSValue * string) :=
  match fuel with
  | O => None
  | S f =>
      match skip_ws s with
      | String "n" _ as t => literal "null" JNull t
      | String "t" _ as t => literal "true" (JBool true) t
      | String "f" _ as t => literal "false" (JBool false) t
      | String "034" r =>
          match string_token r with
          | Some (str, r') => Some (JString str, r')
          | None => None
          end
      | String "[" r => array_body (value f) r
      | String "{" r => object_body (value f) r
      | t =>
          match number_token t with
          | Some (n, r) => Some (JNumber n, r)
          | None => None
          end
      end
  end.

(** [JSON.parse(text)]: one value, then only white space. *)
Definition parse (text : string) : Outcome JSValue :=
  match value (S (String.length text)) text with
  | Some (v, r) =>
      match skip_ws r with
      | EmptyString => Normal v
      | _ => Throw (SyntaxError "Unexpected token in JSON")
      end
  | None => Throw (SyntaxError "Unexpected token in JSON")
  end.

End JSON.

(* ================================================================== *)
(** * Scenarios                                                        *)
(* ================================================================== *)

(** Concrete worlds on which the handler is run. *)
Module Scenario.

(** A JSON text written with ['] where JSON has the quotation mark. *)
Fixpoint json (s : string) : string :=
  match s with
  | EmptyString => EmptyString
  | String c r => String (if Ascii.eqb c "'" then "034"%char else c) (json r)
  end.

Definition completion (txt : string) : ChatCompletion :=
  {| choices := [ {| content := Some txt |} ] |}.

(** The model answers the extraction prompt with [extraction] and the
    decision prompt with [decision]. *)
Definition model (extraction decision : string) (req : ChatRequest)
    : Outcome ChatCompletion :=
  match req with
  | ParseRequest _ => Normal (completion extraction)
  | DecisionRequest _ _ => Normal (completion decision)
  end.

Definition store_up (_ : AuditRecord.t) : Outcome unit := Normal tt.

(** Every query embeds to the first unit vector of the plane. *)
Definition embedder (_ : string) : Outcome (list number) :=
  Normal (reals [1; 0]%R).

Definition world (extraction decision : string)
    (store : AuditRecord.t -> Outcome unit) (collection : list Fragment.t) : World :=
  {| chat_completions_create := model extraction decision;
     embedText := embedder;
     QueryLog_create := store;
     JSON_parse := JSON.parse;
     embeddings := collection |}.

Definition fragment (n : string) (txt : string) (v : list R) : Fragment.t :=
  {| Fragment.dataset := "policy.pdf";
     Fragment.id := "policy.pdf::" ++ n;
     Fragment.text := txt;
     Fragment.embedding := reals v |}.

(** A collection unrelated to the query direction: no score reaches
    the threshold. *)
Definition unrelated : list Fragment.t :=
  [ fragment "1" "Premiums are payable annually in advance." [0; 1]%R;
    fragment "2" "Grace period" [-1; 0]%R;
    fragment "3" "This page is intentionally left blank." [0; 0]%R ].

(** A collection with two fragments along the query direction, one of
    them too short to be kept. *)
Definition relevant : list Fragment.t :=
  [ fragment "1" "Premiums are payable annually in advance." [0; 1]%R;
    fragment "2" "n/a" [1; 0]%R;
    fragment "3" "Knee surgery is excluded during the first two policy years." [1; 0]%R ].

Definition request (q : string) : JSValue := JObject [("query", JString q)].

Definition knee : string := "46-year-old male, knee surgery in Pune, 3-month-old policy".

Definition extraction_ok : string :=
  json "{'age':46,'gender':'male','procedure':'knee surgery','location':'Pune','policy_duration':'3 months'}".

Definition decision_ok : string :=
  json "{'parsed_query': {'procedure': 'knee surgery'}, 'decision': {'status': 'Rejected', 'amount': null, 'justification': 'CLAUSE_1 excludes knee surgery.'}}".

Definition decision_maybe : string :=
  json "{'parsed_query': {}, 'decision': {'status': 'Maybe', 'amount': null, 'justification': 'Unclear.'}}".


Definition garbage : string := "I am sorry, I cannot help with that.".

Definition mongo_error : exn :=
  {| name := "MongoNetworkError"; message := "connection refused" |}.

Definition api_error : exn :=
  {| name := "APIConnectionError"; message := "Connection error." |}.

Definition store_down (_ : AuditRecord.t) : Outcome unit := Throw mongo_error.

(** Everything answers, the audit store does not. *)
Definition outage : World := world extraction_ok decision_ok store_down unrelated.

(** The extraction answer is the JSON number 42. *)
Definition bare_number : World := world "42" garbage store_up unrelated.

(** Both answers are prose. *)
Definition confused : World := world garbage garbage store_up unrelated.

(** The model cannot be reached. *)
Definition model_down : World :=
  {| chat_completions_create := fun _ => Throw api_error;
     embedText := embedder;
     QueryLog_create := store_up;
     JSON_parse := JSON.parse;
     embeddings := unrelated |}.

(** The decision carries a status outside the schema. *)
Definition undecided : World := world extraction_ok decision_maybe store_up unrelated.

(** The decision is prose. *)
Definition babble : World := world extraction_ok garbage store_up unrelated.


(** No collection was loaded. *)
Definition no_index : World := world extraction_ok decision_ok store_up [].

(** What the retriever selects in [unrelated] for any query. *)
Definition evidence : list Clause.t := usedClauses (reals [1; 0]%R) unrelated.

Definition rejection : JSValue :=
  JObject [("status", JString "Rejected");
           ("amount", JNull);
           ("justification", JString "CLAUSE_1 excludes knee surgery.")].

(** [finalJson] for [decision_ok]: the parsed object, with
    [clauses_used] added by the repair. *)
Definition rejected : JSValue :=
  JObject [("parsed_query", JObject [("procedure", JString "knee surgery")]);
           ("decision", rejection);
           ("clauses_used", clauses_value evidence)].

Definition rejected_record : AuditRecord.t :=
  {| AuditRecord.query := knee;
     AuditRecord.parsed_query := JObject [("procedure", JString "knee surgery")];
     AuditRecord.decision := rejection;
     AuditRecord.clauses_used := clauses_value evidence |}.

Definition hesitation : JSValue :=
  JObject [("status", JString "Maybe");
           ("amount", JNull);
           ("justification", JString "Unclear.")].

(** [finalJson] for [decision_maybe]. *)
Definition hesitant : JSValue :=
  JObject [("parsed_query", JObject []);
           ("decision", hesitation);
           ("clauses_used", clauses_value evidence)].

Definition hesitant_record : AuditRecord.t :=
  {| AuditRecord.query := knee;
     AuditRecord.parsed_query := JObject [];
     AuditRecord.decision := hesitation;
     AuditRecord.clauses_used := clauses_value evidence |}.

End Scenario.

(* ================================================================== *)
(** * The indexer                                                      *)
(* ================================================================== *)

(** The script that builds [embeddings.json]: [chunkText] and
    [indexPDFs]. *)
Module Indexer.

(** [text.split(/\s+/)]: the pieces between the runs of white space.
    [gap] tells that the previous character belonged to a run, whose
    separation is already made.  A text that starts or ends with white
    space has an empty first or last piece; the empty text has one empty
    piece. *)
Fixpoint pieces (gap : bool) (s : string) : list string :=
  match s with
  | EmptyString => [EmptyString]
  | String c r =>
      if JSString.is_whitespace c then
        if gap then pieces true r else EmptyString :: pieces true r
      else
        match pieces false r with
        | w :: ws => String c w :: ws
        | [] => [String c EmptyString]
        end
  end.

Definition split (text : string) : list string := pieces false text.

(** [words.slice(i, i + chunkSize)]. *)
Definition window (words : list string) (i chunkSize : nat) : list string :=
  firstn chunkSize (skipn i words).

(** [ws.join(' ')]. *)
Definition join (ws : list string) : string := String.concat " " ws.

(** The loop of [chunkText] from index [i] on, [step] being
    [chunkSize - overlap].  The loop of the source does not end when the
    step is not positive and the first chunk does not reach the end:
    the result is then [None], whatever the fuel. *)
Fixpoint chunk_loop (fuel : nat) (words : list string) (chunkSize step i : nat)
    : option (list string) :=
  match fuel with
  | O => None
  | S f =>
      if (i <? List.length words)%nat then
        let chunk := join (window words i chunkSize) in
        if (List.length words <=? i + chunkSize)%nat then Some [chunk]
        else
          match chunk_loop f words chunkSize step (i + step) with
          | Some chunks => Some (chunk :: chunks)
          | None => None
          end
      else Some []
  end.

(** [chunkText(text, chunkSize, overlap)], for a size and an overlap
    that are natural numbers.  One turn per word is enough fuel when the
    step is positive.  An overlap above the size gives the source a
    negative step: the index then only decreases, the test of the loop
    and the test before [break] keep their first values, and the loop
    runs on as it does with the step 0 that the subtraction on [nat]
    gives here. *)
Definition chunkText (text : string) (chunkSize overlap : nat) : option (list string) :=
  let words := split text in
  chunk_loop (S (List.length words)) words chunkSize (chunkSize - overlap) 0.

(** [text.replace(/\n+/g, ' ')]: each run of line feeds becomes one
    space. *)
Fixpoint newlines_to_space (in_run : bool) (s : string) : string :=
  match s with
  | EmptyString => EmptyString
  | String c r =>
      if Ascii.eqb c "010"%char then
        if in_run then newlines_to_space true r
        else String " "%char (newlines_to_space true r)
      else String c (newlines_to_space false r)
  end.

(** [pdfData.text.replace(/\n+/g, ' ').trim()]. *)
Definition cleanText (text : string) : string :=
  JSString.trim (newlines_to_space false text).

(** [c.toLowerCase()] on a code unit below 256. *)
Definition lower (c : ascii) : ascii :=
  let n := nat_of_ascii c in
  if ((65 <=? n) && (n <=? 90) || (192 <=? n) && (n <=? 214)
      || (216 <=? n) && (n <=? 222))%nat
  then ascii_of_nat (n + 32) else c.

Fixpoint toLowerCase (s : string) : string :=
  match s with
  | EmptyString => EmptyString
  | String c r => String (lower c) (toLowerCase r)
  end.

(** [s.endsWith(suffix)]. *)
Definition endsWith (s suffix : string) : bool :=
  (String.length suffix <=? String.length s)%nat
  && String.eqb (JSString.drop (String.length s - String.length suffix) s) suffix.

(** [f => f.toLowerCase().endsWith('.pdf')]. *)
Definition is_pdf (f : string) : bool := endsWith (toLowerCase f) ".pdf".

(** The decimal writing of an index, as a template literal prints it. *)
Definition decimal (n : nat) : string := NilEmpty.string_of_uint (Nat.to_uint n).

(** What the script reads and calls. *)
Record Library : Type := {
  (** [fs.readdirSync(PDF_DIR)] *)
  readdir : Outcome (list string);
  (** [pdfParse(fs.readFileSync(filePath))], its [text] *)
  pdf_text : string -> Outcome string;
  (** [embedText] *)
  embed : string -> Outcome (list number)
}.

(** The chunks of one document.  [chunkText] is called with 500 and 50,
    for which its loop ends (lemma [chunkText_default_ends]). *)
Definition chunks_of (text : string) : list string :=
  match chunkText (cleanText text) 500 50 with
  | Some chunks => chunks
  | None => []
  end.

(** The inner loop of [indexPDFs]: the records of the chunks of [file]
    from index [i] on. *)
Fixpoint embed_chunks (L : Library) (file : string) (i : nat) (chunks : list string)
    : Outcome (list Fragment.t) :=
  match chunks with
  | [] => Normal []
  | chunk :: rest =>
      embedding <- embed L chunk ;;
      records <- embed_chunks L file (S i) rest ;;
      Normal ({| Fragment.dataset := file;
                 Fragment.id := file ++ "::" ++ decimal (i + 1);
                 Fragment.text := chunk;
                 Fragment.embedding := embedding |} :: records)
  end.

(** The outer loop. *)
Fixpoint index_files (L : Library) (files : list string) : Outcome (list Fragment.t) :=
  match files with
  | [] => Normal []
  | file :: rest =>
      text <- pdf_text L file ;;
      records <- embed_chunks L file 0 (chunks_of text) ;;
      more <- index_files L rest ;;
      Normal (records ++ more)
  end.

(** [indexPDFs]: the array written to [embeddings.json], or the error
    that ends the script before anything is written. *)
Definition indexPDFs (L : Library) : Outcome (list Fragment.t) :=
  names <- readdir L ;;
  index_files L (filter is_pdf names).

End Indexer.

(* ================================================================== *)
(** * Vocabulary of the statements                                     *)
(* ================================================================== *)

(** Some character of [s] satisfies [p]. *)
Fixpoint some_char (p : ascii -> bool) (s : string) : bool :=
  match s with
  | EmptyString => false
  | String c r => p c || some_char p r
  end.

(** A word: not empty, without white space. *)
Definition is_word (w : string) : Prop :=
  w <> EmptyString /\ some_char JSString.is_whitespace w = false.

(** A record of the index is labelled by a file of [names], numbered
    from 1 within it, holds a chunk of the text of that file and the
    embedding the model returned for that chunk. *)
Definition labelled (L : Indexer.Library) (names : list string) (r : Fragment.t) : Prop :=
  In (Fragment.dataset r) names /\
  (exists k, Fragment.id r
             = (Fragment.dataset r ++ "::" ++ Indexer.decimal (S k))%string) /\
  (exists text, Indexer.pdf_text L (Fragment.dataset r) = Normal text /\
                In (Fragment.text r) (Indexer.chunks_of text)) /\
  Indexer.embed L (Fragment.text r) = Normal (Fragment.embedding r).

(** A directory and a model on which the indexer is run. *)
Module Shelf.

Definition names : list string := ["policy.pdf"; "notes.txt"; "Claims.PDF"; "blank.pdf"].

Definition reader (file : string) : Outcome string :=
  if String.eqb file "policy.pdf" then Normal "Knee surgery is excluded
during the first two policy years."
  else if String.eqb file "Claims.PDF" then Normal "Claims are settled within thirty days."
  else if String.eqb file "blank.pdf" then Normal EmptyString
  else Throw {| name := "Error"; message := "Invalid PDF structure" |}.

Definition library : Indexer.Library :=
  {| Indexer.readdir := Normal names;
     Indexer.pdf_text := reader;
     Indexer.embed := fun _ => Normal (reals [1; 0]%R) |}.

(** The same directory with a file that cannot be parsed. *)
Definition damaged : Indexer.Library :=
  {| Indexer.readdir := Normal ["policy.pdf"; "scan.pdf"];
     Indexer.pdf_text := reader;
     Indexer.embed := fun _ => Normal (reals [1; 0]%R) |}.

Definition seven : string := "a b c d e f g".

Definition record (file n txt : string) : Fragment.t :=
  {| Fragment.dataset := file;
     Fragment.id := file ++ "::" ++ n;
     Fragment.text := txt;
     Fragment.embedding := reals [1; 0]%R |}.

(** What the indexer writes for [library]. *)
Definition index : list Fragment.t :=
  [ record "policy.pdf" "1"
      "Knee surgery is excluded during the first two policy years.";
    record "Claims.PDF" "1" "Claims are settled within thirty days.";
    record "blank.pdf" "1" EmptyString ].

End Shelf.

(** Worlds in which one of the services the route awaits fails after
    the extraction has been answered. *)
Module Faults.

Definition onnx_error : exn :=
  {| name := "Error"; message := "Could not locate file: onnx/model_quantized.onnx" |}.

Definition rate_limit : exn :=
  {| name := "RateLimitError"; message := "429 Rate limit reached" |}.

(** The embedding model cannot be loaded. *)
Definition embedder_down : World :=
  {| chat_completions_create :=
       Scenario.model Scenario.extraction_ok Scenario.decision_ok;
     embedText := fun _ => Throw onnx_error;
     QueryLog_create := Scenario.store_up;
     JSON_parse := JSON.parse;
     embeddings := Scenario.unrelated |}.

(** The chat model answers the extraction and refuses the decision. *)
Definition decision_down : World :=
  {| chat_completions_create := fun req =>
       match req with
       | ParseRequest _ => Normal (Scenario.completion Scenario.extraction_ok)
       | DecisionRequest _ _ => Throw rate_limit
       end;
     embedText := Scenario.embedder;
     QueryLog_create := Scenario.store_up;
     JSON_parse := JSON.parse;
     embeddings := Scenario.unrelated |}.




End Faults.

(* ================================================================== *)
(** * Properties of [cosine]                                           *)
(* ================================================================== *)

Section CosineFacts.



Lemma cosine_upto_S (a b : list number) (k : nat) :
  cosine_upto a b (S k) = cosine_step a b (cosine_upto a b k) k.
Proof. unfold cosine_upto. rewrite seq_S, fold_left_app. reflexivity. Qed.


Lemma Math_sqrt_nonneg (x : R) : (0 <= x)%R -> Math_sqrt (Num x) = Num (sqrt x).
Proof.
  intros Hx. unfold Math_sqrt.
  destruct (Rcase_abs x) as [Hneg|_]; [lra | reflexivity].
Qed.

Lemma denominator_positive (na nb : R) :
  (0 <= na)%R -> (0 <= nb)%R ->
  denominator (Num na) (Num nb) = Num (sqrt na * sqrt nb + 1e-10)
  /\ (0 < sqrt na * sqrt nb + 1e-10)%R.
Proof.
  intros Ha Hb. unfold denominator. rewrite !Math_sqrt_nonneg by assumption.
  split; [reflexivity|].
  pose proof (sqrt_pos na). pose proof (sqrt_pos nb). nra.
Qed.

Lemma cosine_from_loop (a b : list number) (dot na nb : R) :
  cosine_loop a b = (Num dot, Num na, Num nb) ->
  (0 <= na)%R -> (0 <= nb)%R ->
  cosine a b = Num (dot / (sqrt na * sqrt nb + 1e-10)).
Proof.
  intros Hloop Hna Hnb. unfold cosine. rewrite Hloop.
  destruct (denominator_positive na nb Hna Hnb) as [-> _]. reflexivity.
Qed.

Lemma quotient_below (dot den : R) :
  (dot <= 0)%R -> (0 < den)%R -> (dot / den < 0.25)%R.
Proof.
  intros Hd Hden. pose proof (Rinv_0_lt_compat den Hden). unfold Rdiv. nra.
Qed.

End CosineFacts.

(* ================================================================== *)
(** * [cosine] in binary64                                             *)
(* ================================================================== *)

Section Binary64Facts.

Import Floats.
Import Binary64.
Local Open Scope float_scope.

























(** The guard is absorbed by a large norm: the score of [100000] with
    itself is exactly 1, and with its opposite exactly -1. *)
Remark guard_is_absorbed :
  Binary64.cosine [Binary64.large] [Binary64.large] = 1 /\
  Binary64.cosine [Binary64.large] [- Binary64.large] = -1.
Proof. repeat split. Qed.

End Binary64Facts.

(* ================================================================== *)
(** * Properties of the clause selection                               *)
(* ================================================================== *)

Section SortFacts.
Context {A : Type} (cmp : A -> A -> number).

Lemma length_insert (x : A) (l : list A) :
  List.length (insert cmp x l) = S (List.length l).
Proof.
  induction l as [|y l IH]; cbn; [reflexivity|].
  destruct (gtb (cmp x y) zero); cbn; [now rewrite IH | reflexivity].
Qed.

Lemma length_sort (l : list A) : List.length (sort cmp l) = List.length l.
Proof.
  induction l as [|x l IH]; cbn; [reflexivity|].
  fold (sort cmp l). now rewrite length_insert, IH.
Qed.

Lemma in_insert (x z : A) (l : list A) :
  In z (insert cmp x l) <-> z = x \/ In z l.
Proof.
  induction l as [|y l IH]; cbn.
  - intuition congruence.
  - destruct (gtb (cmp x y) zero); cbn; rewrite ?IH; intuition congruence.
Qed.

Lemma in_sort (z : A) (l : list A) : In z (sort cmp l) <-> In z l.
Proof.
  induction l as [|x l IH]; cbn; [tauto|].
  fold (sort cmp l). rewrite in_insert, IH. intuition congruence.
Qed.
End SortFacts.

Section OrderFacts.






End OrderFacts.

Section SelectionFacts.



Lemma in_firstn {A : Type} (z : A) (n : nat) (l : list A) :
  In z (firstn n l) -> In z l.
Proof.
  revert n. induction l as [|x l IH]; intros [|n]; cbn; try tauto.
  intros [->|Hz]; [now left | right; eauto].
Qed.




Lemma length_scored (qEmb : list number) (coll : list Fragment.t) :
  List.length (scored qEmb coll) = List.length coll.
Proof. unfold scored. now rewrite length_sort, length_map. Qed.


Lemma length_primary (sc : list Scored.t) :
  (List.length (primary_selection sc) <= TOP_K)%nat.
Proof.
  unfold primary_selection.
  etransitivity; [apply filter_length_le|].
  rewrite length_map. apply firstn_le_length.
Qed.

Lemma length_fallback (sc : list Scored.t) :
  List.length (fallback_selection sc) = Nat.min TOP_K (List.length sc).
Proof. unfold fallback_selection. now rewrite length_map, length_firstn. Qed.

Lemma long_enough_spec (c : Clause.t) :
  long_enough c = true ->
  (11 <= String.length (JSString.trim (Clause.excerpt c)))%nat.
Proof.
  unfold long_enough. rewrite andb_true_iff, Nat.ltb_lt. intros [_ H]. lia.
Qed.

End SelectionFacts.

(** C5.  Whatever the query vector and the collection, the retriever
    returns at most [TOP_K] clauses; every clause of the primary
    (threshold) selection has an excerpt of at least 11 characters once
    trimmed; and that selection is what the retriever returns unless it
    is empty. *)
Theorem retriever_bounds (qEmb : list number) (coll : list Fragment.t) :
  (List.length (usedClauses qEmb coll) <= TOP_K)%nat /\
  TOP_K = 6%nat /\
  Forall (fun c => (11 <= String.length (JSString.trim (Clause.excerpt c)))%nat)
         (primary_selection (scored qEmb coll)) /\
  (primary_selection (scored qEmb coll) = [] \/
   usedClauses qEmb coll = primary_selection (scored qEmb coll)).
Proof.
  repeat split.
  - unfold usedClauses, select_clauses.
    pose proof (length_primary (scored qEmb coll)) as Hp.
    destruct (primary_selection (scored qEmb coll)); [|exact Hp].
    rewrite length_fallback. apply Nat.le_min_l.
  - apply Forall_forall. intros c Hc. unfold primary_selection in Hc.
    apply filter_In in Hc as [_ Hc]. now apply long_enough_spec.
  - unfold usedClauses, select_clauses.
    destruct (primary_selection (scored qEmb coll)); [now left | now right].
Qed.


(** The scores of the collection [Scenario.unrelated] against the query
    direction: 0, a negative number, 0. *)
Lemma unrelated_scores_low (e : Fragment.t) :
  In e Scenario.unrelated ->
  less (cosine (reals [1; 0]%R) (Fragment.embedding e)) MIN_SIMILARITY.
Proof.
  intros [<-|[<-|[<-|[]]]]; cbn [Fragment.embedding Scenario.fragment];
    (erewrite cosine_from_loop; [| reflexivity | nra | nra]);
    cbn [less MIN_SIMILARITY]; apply quotient_below; try nra;
    match goal with
    | |- (0 < sqrt ?x * sqrt ?y + _)%R =>
        pose proof (sqrt_pos x); pose proof (sqrt_pos y); nra
    end.
Qed.


(** On the empty collection every stage of the selection is empty. *)
Lemma empty_collection_selection (qEmb : list number) :
  scored qEmb [] = [] /\
  primary_selection (scored qEmb []) = [] /\
  fallback_selection (scored qEmb []) = [] /\
  usedClauses qEmb [] = [].
Proof. repeat split; reflexivity. Qed.

Section ScenarioScores.

Lemma aligned_score :
  exists s, cosine (reals [1; 0]%R) (reals [1; 0]%R) = Num s /\ (0.25 <= s)%R.
Proof.
  erewrite cosine_from_loop; [| reflexivity | nra | nra].
  eexists. split; [reflexivity|].
  replace (0 + 1 ^ 2 + 0 ^ 2)%R with 1%R by ring. rewrite sqrt_1.
  apply Rmult_le_reg_r with (1 * 1 + 1e-10)%R; [lra|].
  unfold Rdiv. rewrite Rmult_assoc, Rinv_l by lra. lra.
Qed.

Lemma orthogonal_score :
  exists s, cosine (reals [1; 0]%R) (reals [0; 1]%R) = Num s /\ (s < 0.25)%R.
Proof.
  pose proof (unrelated_scores_low _ (or_introl eq_refl)) as Hlow.
  cbn [Fragment.embedding Scenario.fragment] in Hlow.
  destruct (cosine (reals [1; 0]%R) (reals [0; 1]%R)) as [|s]; [contradiction|].
  exists s. split; [reflexivity | exact Hlow].
Qed.

End ScenarioScores.

(** Settles the comparisons of reals left in a goal by the hypotheses. *)
Ltac decide_order :=
  repeat match goal with
         | |- context [Rlt_dec ?x ?y] => destruct (Rlt_dec x y); try lra
         | |- context [Rle_dec ?x ?y] => destruct (Rle_dec x y); try lra
         end.

(** The primary path on [Scenario.relevant]: the two aligned fragments
    pass the threshold, the short one is dropped by the length filter. *)
Example relevant_primary_path :
  exists s,
    (0.25 <= s)%R /\
    usedClauses (reals [1; 0]%R) Scenario.relevant
    = [ {| Clause.dataset := "policy.pdf";
           Clause.clause_ref := "policy.pdf::3";
           Clause.excerpt := "Knee surgery is excluded during the first two policy years.";
           Clause.score := Num s |} ].
Proof.
  destruct aligned_score as (s & Hs & Hbound).
  destruct orthogonal_score as (t & Ht & Hlow).
  exists s. split; [exact Hbound|].
  unfold usedClauses, scored, Scenario.relevant.
  cbn [map Fragment.embedding Scenario.fragment].
  rewrite Hs, Ht.
  repeat (progress cbn [sort fold_right insert by_score_desc Scored.score sub gtb zero];
          decide_order).
  unfold select_clauses, primary_selection.
  repeat (progress cbn [filter Scored.score geb MIN_SIMILARITY]; decide_order).
  reflexivity.
Qed.

(* ================================================================== *)
(** * Properties of the values                                         *)
(* ================================================================== *)

Section PropertyFacts.

Lemma lookup_update_same (k : string) (v : JSValue) (props : Props) :
  lookup k (update k v props) = Some v.
Proof.
  induction props as [|[k' v'] props IH]; cbn.
  - now rewrite String.eqb_refl.
  - destruct (String.eqb k k') eqn:E; cbn; rewrite E; [reflexivity | exact IH].
Qed.

Lemma lookup_update_other (k k' : string) (v : JSValue) (props : Props) :
  k <> k' -> lookup k' (update k v props) = lookup k' props.
Proof.
  intros Hne. induction props as [|[k0 v0] props IH]; cbn.
  - apply String.eqb_neq in Hne. rewrite String.eqb_sym in Hne. now rewrite Hne.
  - destruct (String.eqb k k0) eqn:E; cbn.
    + apply String.eqb_eq in E. subst k0.
      destruct (String.eqb_spec k' k); [congruence | reflexivity].
    + now rewrite IH.
Qed.

Lemma own_update_same (k : string) (v : JSValue) (props : Props) :
  own k (update k v props) = v.
Proof. unfold own. now rewrite lookup_update_same. Qed.

Lemma own_update_other (k k' : string) (v : JSValue) (props : Props) :
  k <> k' -> own k' (update k v props) = own k' props.
Proof. intros H. unfold own. now rewrite lookup_update_other. Qed.

(** [arr.length === 0] is the emptiness of the array. *)
Lemma is_zero_length (n : nat) : is_zero (JNumber (of_nat n)) = Nat.eqb n 0.
Proof.
  cbn. destruct (Req_dec_T (INR n) 0) as [H|H]; destruct n; cbn [Nat.eqb];
    try reflexivity.
  - exfalso. revert H. apply not_0_INR. discriminate.
  - exfalso. apply H. reflexivity.
Qed.

End PropertyFacts.

(* ================================================================== *)
(** * Properties of the adjudication step                              *)
(* ================================================================== *)

Section AdjudicationFacts.


Lemma repair_object_array (props : Props) (elems : list JSValue) (named : Props)
    (used : list Clause.t) :
  own "clauses_used" props = JArray elems named ->
  repair (JObject props) used
  = Normal (match elems with
            | [] => JObject (update "clauses_used" (clauses_value used) props)
            | _ => JObject props
            end).
Proof.
  intros H. unfold repair. cbn [get_prop bind]. rewrite H.
  cbn [falsy get_prop String.eqb Ascii.eqb Bool.eqb bind].
  rewrite is_zero_length. destruct elems; reflexivity.
Qed.

(** On an object the repair never throws; it returns the object itself
    or the object with [clauses_used] reassigned. *)
Lemma repair_object (props : Props) (used : list Clause.t) :
  exists props',
    repair (JObject props) used = Normal (JObject props')
    /\ (props' = props \/ props' = update "clauses_used" (clauses_value used) props).
Proof.
  unfold repair. cbn [get_prop bind].
  destruct (falsy (own "clauses_used" props)) eqn:Hf.
  - eexists. split; [reflexivity | now right].
  - destruct (own "clauses_used" props) as [| |b|n|s|elems named|ps];
      try discriminate Hf; cbn [get_prop String.eqb Ascii.eqb Bool.eqb bind].
    + cbn. eexists; split; [reflexivity | now left].
    + cbn. eexists; split; [reflexivity | now left].
    + destruct (is_zero _); eexists; (split; [reflexivity | tauto]).
    + destruct (is_zero _); eexists; (split; [reflexivity | tauto]).
    + destruct (is_zero _); eexists; (split; [reflexivity | tauto]).
Qed.

(** What leaves the repair is an object or an array: on anything else
    the property read or the assignment throws. *)
Lemma repair_shape (v : JSValue) (used : list Clause.t) (fj : JSValue) :
  repair v used = Normal fj ->
  (exists props, fj = JObject props) \/ (exists elems named, fj = JArray elems named).
Proof.
  destruct v as [| |b|n|s|elems named|props]; try (cbn; discriminate).
  - unfold repair. cbn [get_prop bind String.eqb Ascii.eqb Bool.eqb].
    destruct (falsy (own "clauses_used" named)).
    + cbn [set_prop]. intros [= <-]. right. eauto.
    + destruct (get_prop (own "clauses_used" named) "length") as [len|e];
        cbn [bind]; [|discriminate].
      destruct (is_zero len); cbn [set_prop]; intros [= <-]; right; eauto.
  - destruct (repair_object props used) as (props' & -> & _).
    intros [= <-]. left. eauto.
Qed.

Lemma repair_fallback (pq : JSValue) (used : list Clause.t) :
  repair (fallback_decision pq used) used = Normal (fallback_decision pq used).
Proof.
  unfold fallback_decision.
  rewrite (repair_object_array _ (map clause_value used) []) by reflexivity.
  destruct used; reflexivity.
Qed.

Lemma adjudicate_fallback (W : World) (decisionResp : ChatCompletion)
    (pq : JSValue) (used : list Clause.t) (e : exn) :
  parse_decision W decisionResp = Throw e ->
  adjudicate W decisionResp pq used = Normal (fallback_decision pq used).
Proof. intros H. unfold adjudicate. rewrite H. apply repair_fallback. Qed.

End AdjudicationFacts.

(* ================================================================== *)
(** * Properties of the route                                          *)
(* ================================================================== *)

Section RouteFacts.

Lemma audit_record_total (q : string) (fj : JSValue) :
  (exists props, fj = JObject props) \/ (exists elems named, fj = JArray elems named) ->
  exists record, audit_record q fj = Normal record.
Proof.
  intros [[props ->]|(elems & named & ->)]; unfold audit_record; cbn; eauto.
Qed.

Lemma assemble_shape (W : World) (q : string) (fj : JSValue) :
  assemble W q = Normal fj ->
  (exists props, fj = JObject props) \/ (exists elems named, fj = JArray elems named).
Proof.
  unfold assemble.
  destruct (chat_completions_create W (ParseRequest q)) as [parseResp|];
    [|discriminate].
  cbn [bind]. destruct (embedText W q) as [qEmb|]; [|discriminate]. cbn [bind].
  destruct (chat_completions_create W _) as [decisionResp|]; [|discriminate].
  cbn [bind]. unfold adjudicate. apply repair_shape.
Qed.

(** A non-empty string query passes the guard. *)
Lemma search_accepts (W : World) (body : JSValue) (q : string) :
  get_prop body "query" = Normal (JString q) -> q <> EmptyString ->
  search_try W body = pipeline W q.
Proof.
  intros Hq Hne. unfold search_try. rewrite Hq.
  cbn [bind falsy is_string negb orb string_of].
  destruct q; [congruence | reflexivity].
Qed.

Lemma pipeline_after_assemble (W : World) (q : string) (fj : JSValue)
    (record : AuditRecord.t) :
  assemble W q = Normal fj ->
  audit_record q fj = Normal record ->
  pipeline W q
  = (_ <- QueryLog_create W record ;;
     Normal ({| status := 200; body := fj |}, [record])).
Proof.
  intros Hfj Hrec. unfold pipeline. rewrite Hfj. cbn [bind]. now rewrite Hrec.
Qed.

(** Whatever the pipeline sends, it sends with status 200. *)
Lemma pipeline_status (W : World) (q : string) (r : Response)
    (l : list AuditRecord.t) :
  pipeline W q = Normal (r, l) -> status r = 200%nat.
Proof.
  unfold pipeline.
  destruct (assemble W q) as [fj|]; [|discriminate]. cbn [bind].
  destruct (audit_record q fj) as [record|]; [|discriminate]. cbn [bind].
  destruct (QueryLog_create W record) as [[]|]; [|discriminate]. cbn [bind].
  now intros [= <- _].
Qed.

End RouteFacts.

Section RouteRuns.

Lemma search_store_failure (W : World) (body : JSValue) (q : string)
    (fj : JSValue) (record : AuditRecord.t) (e : exn) :
  get_prop body "query" = Normal (JString q) -> q <> EmptyString ->
  assemble W q = Normal fj ->
  audit_record q fj = Normal record ->
  QueryLog_create W record = Throw e ->
  search W body = (server_error e, []).
Proof.
  intros Hq Hne Hfj Hrec Hlog. unfold search.
  rewrite (search_accepts W body q Hq Hne).
  rewrite (pipeline_after_assemble W q fj record Hfj Hrec), Hlog. reflexivity.
Qed.

Lemma search_success (W : World) (body : JSValue) (q : string)
    (fj : JSValue) (record : AuditRecord.t) :
  get_prop body "query" = Normal (JString q) -> q <> EmptyString ->
  assemble W q = Normal fj ->
  audit_record q fj = Normal record ->
  QueryLog_create W record = Normal tt ->
  search W body = ({| status := 200; body := fj |}, [record]).
Proof.
  intros Hq Hne Hfj Hrec Hlog. unfold search.
  rewrite (search_accepts W body q Hq Hne).
  rewrite (pipeline_after_assemble W q fj record Hfj Hrec), Hlog. reflexivity.
Qed.

(** The assembly once the three awaited calls have answered. *)
Lemma assemble_answers (W : World) (q : string) (parseResp : ChatCompletion)
    (qEmb : list number) (decisionResp : ChatCompletion) :
  chat_completions_create W (ParseRequest q) = Normal parseResp ->
  embedText W q = Normal qEmb ->
  chat_completions_create W
    (DecisionRequest (parsedQuery W parseResp) (usedClauses qEmb (embeddings W)))
  = Normal decisionResp ->
  assemble W q
  = adjudicate W decisionResp (parsedQuery W parseResp)
      (usedClauses qEmb (embeddings W)).
Proof.
  intros Hp He Hd. unfold assemble. rewrite Hp. cbn [bind]. rewrite He. cbn [bind].
  rewrite Hd. reflexivity.
Qed.

End RouteRuns.

(** C1, as the handler has it.  The audit append comes after the
    assembly of [finalJson] and before the response.  When the assembly
    throws, nothing is appended and the caller receives the 500 error.
    Once [finalJson] is assembled the record for the audit store can
    always be built; when the append throws, the caller receives the 500
    error carrying the failure's message and no DecisionResult; when it
    succeeds, the caller receives [finalJson] with status 200. *)
Theorem audit_append_gates_response (W : World) (body : JSValue) (q : string) :
  get_prop body "query" = Normal (JString q) -> q <> EmptyString ->
  (forall e, assemble W q = Throw e -> search W body = (server_error e, [])) /\
  (forall fj, assemble W q = Normal fj ->
     exists record,
       audit_record q fj = Normal record /\
       (forall e, QueryLog_create W record = Throw e ->
                  search W body = (server_error e, [])) /\
       (QueryLog_create W record = Normal tt ->
        search W body = ({| status := 200; body := fj |}, [record]))).
Proof.
  intros Hq Hne. split.
  - intros e He. unfold search. rewrite (search_accepts W body q Hq Hne).
    unfold pipeline. now rewrite He.
  - intros fj Hfj.
    destruct (audit_record_total q fj (assemble_shape W q fj Hfj)) as [record Hrec].
    exists record. split; [exact Hrec|]. split.
    + intros e He. now apply search_store_failure with q fj record.
    + intros Hok. now apply search_success with q.
Qed.

Lemma audit_append_gates_response_witness :
  search Scenario.outage (Scenario.request Scenario.knee)
  = (server_error Scenario.mongo_error, []).
Proof.
  destruct (audit_append_gates_response Scenario.outage
              (Scenario.request Scenario.knee) Scenario.knee) as [_ Hassembled].
  - reflexivity.
  - discriminate.
  - destruct (Hassembled Scenario.rejected) as (record & _ & Hthrow & _).
    + reflexivity.
    + apply Hthrow. reflexivity.
Defined.

(** C1, counterexample.  In [Scenario.outage] the model answers both
    prompts, [finalJson] is assembled with status "Rejected", the audit
    store refuses the append: the caller receives the 500 error, not the
    DecisionResult. *)
Lemma audit_failure_blocks_response :
  assemble Scenario.outage Scenario.knee = Normal Scenario.rejected /\
  audit_record Scenario.knee Scenario.rejected = Normal Scenario.rejected_record /\
  QueryLog_create Scenario.outage Scenario.rejected_record
  = Throw Scenario.mongo_error /\
  search Scenario.outage (Scenario.request Scenario.knee)
  = ({| status := 500;
        body := JObject [("error", JString "connection refused")] |}, []) /\
  fst (search Scenario.outage (Scenario.request Scenario.knee))
  <> {| status := 200; body := Scenario.rejected |}.
Proof.
  assert (Hfj : assemble Scenario.outage Scenario.knee = Normal Scenario.rejected)
    by reflexivity.
  assert (Hrec : audit_record Scenario.knee Scenario.rejected
                 = Normal Scenario.rejected_record) by reflexivity.
  assert (Hs : search Scenario.outage (Scenario.request Scenario.knee)
               = (server_error Scenario.mongo_error, [])).
  { eapply search_store_failure; [reflexivity | discriminate | exact Hfj
                                  | exact Hrec | reflexivity]. }
  repeat split; try assumption; try reflexivity.
  rewrite Hs. discriminate.
Qed.

(** C2, as the handler has it.  At the extraction stage, when the body
    of the [try] throws (no choice in the completion, or [JSON.parse]
    rejects the stripped text) the structured query is the empty object;
    when it returns a value, that value is kept as it is, object or not;
    and a completion call that itself throws is not caught there: the
    caller receives the 500 error. *)
Theorem extraction_policy (W : World) (parseResp : ChatCompletion) :
  (forall e, parse_query W parseResp = Throw e ->
             parsedQuery W parseResp = JObject []) /\
  (forall v, parse_query W parseResp = Normal v ->
             parsedQuery W parseResp = v) /\
  (forall body q e,
     get_prop body "query" = Normal (JString q) -> q <> EmptyString ->
     chat_completions_create W (ParseRequest q) = Throw e ->
     search W body = (server_error e, [])).
Proof.
  repeat split.
  - intros e H. unfold parsedQuery. now rewrite H.
  - intros v H. unfold parsedQuery. now rewrite H.
  - intros body q e Hq Hne Hthrow.
    unfold search. rewrite (search_accepts W body q Hq Hne).
    unfold pipeline, assemble. now rewrite Hthrow.
Qed.

Lemma extraction_policy_witness :
  parsedQuery Scenario.confused (Scenario.completion Scenario.garbage) = JObject []
  /\ parsedQuery Scenario.outage (Scenario.completion Scenario.extraction_ok)
     = JObject [("age", JNumber (Num 46));
                ("gender", JString "male");
                ("procedure", JString "knee surgery");
                ("location", JString "Pune");
                ("policy_duration", JString "3 months")]
  /\ search Scenario.model_down (Scenario.request Scenario.knee)
     = (server_error Scenario.api_error, []).
Proof.
  split; [|split].
  - eapply (proj1 (extraction_policy Scenario.confused
                     (Scenario.completion Scenario.garbage))).
    reflexivity.
  - apply (proj1 (proj2 (extraction_policy Scenario.outage
                           (Scenario.completion Scenario.extraction_ok)))).
    reflexivity.
  - apply (proj2 (proj2 (extraction_policy Scenario.model_down
                           (Scenario.completion Scenario.garbage)))
             (Scenario.request Scenario.knee) Scenario.knee Scenario.api_error).
    + reflexivity.
    + discriminate.
    + reflexivity.
Defined.

(** C2, counterexample.  The model answers the extraction prompt with the
    JSON number 42: the parse succeeds, and the structured query is the
    number 42, not the empty object; it reaches the caller as
    [parsed_query] of the response. *)
Lemma non_object_extraction_is_kept :
  chat_completions_create Scenario.bare_number (ParseRequest Scenario.knee)
  = Normal (Scenario.completion "42") /\
  parse_query Scenario.bare_number (Scenario.completion "42")
  = Normal (JNumber (Num 42)) /\
  parsedQuery Scenario.bare_number (Scenario.completion "42") = JNumber (Num 42) /\
  JNumber (Num 42) <> JObject [] /\
  assemble Scenario.bare_number Scenario.knee
  = Normal (fallback_decision (JNumber (Num 42)) Scenario.evidence).
Proof.
  repeat split; try reflexivity; try discriminate.
  erewrite assemble_answers; [| reflexivity | reflexivity | reflexivity].
  eapply adjudicate_fallback. reflexivity.
Qed.

(** C3, as the handler has it.  On the fallback path (the body of the
    second [try] throws) [decision.status] is exactly "Pending".  On the
    success path with an object, the response carries the [decision] of
    the parsed output unchanged: its status is not examined. *)
Theorem status_policy (W : World) (decisionResp : ChatCompletion)
    (pq : JSValue) (used : list Clause.t) :
  (forall e, parse_decision W decisionResp = Throw e ->
     exists fj d,
       adjudicate W decisionResp pq used = Normal fj /\
       get_prop fj "decision" = Normal d /\
       get_prop d "status" = Normal (JString "Pending")) /\
  (forall props, parse_decision W decisionResp = Normal (JObject props) ->
     exists fj,
       adjudicate W decisionResp pq used = Normal fj /\
       get_prop fj "decision" = Normal (own "decision" props)).
Proof.
  split.
  - intros e H. rewrite (adjudicate_fallback W decisionResp pq used e H).
    eexists _, _. repeat split; reflexivity.
  - intros props H. unfold adjudicate. rewrite H. cbn [try_catch].
    destruct (repair_object props used) as (props' & -> & [->| ->]);
      eexists; (split; [reflexivity|]); cbn [get_prop]; [reflexivity|].
    now rewrite own_update_other by discriminate.
Qed.

Lemma status_policy_witness :
  (exists fj d,
     adjudicate Scenario.babble (Scenario.completion Scenario.garbage)
       (JObject []) Scenario.evidence = Normal fj /\
     get_prop fj "decision" = Normal d /\
     get_prop d "status" = Normal (JString "Pending")) /\
  (exists fj,
     adjudicate Scenario.undecided (Scenario.completion Scenario.decision_maybe)
       (JObject []) Scenario.evidence = Normal fj /\
     get_prop fj "decision" = Normal Scenario.hesitation).
Proof.
  split.
  - eapply (proj1 (status_policy Scenario.babble
                     (Scenario.completion Scenario.garbage) (JObject [])
                     Scenario.evidence)).
    reflexivity.
  - apply (proj2 (status_policy Scenario.undecided
                    (Scenario.completion Scenario.decision_maybe) (JObject [])
                    Scenario.evidence)
             [("parsed_query", JObject []); ("decision", Scenario.hesitation)]).
    reflexivity.
Defined.

(** C3, counterexample.  The model answers the decision prompt with a
    well-formed object whose status is "Maybe".  It is parsed, not
    treated as a parse failure, and the caller receives it with
    status 200: [decision.status] is none of the three values. *)
Lemma unlisted_status_is_returned :
  parse_decision Scenario.undecided (Scenario.completion Scenario.decision_maybe)
  = Normal (JObject [("parsed_query", JObject []);
                     ("decision", Scenario.hesitation)]) /\
  search Scenario.undecided (Scenario.request Scenario.knee)
  = ({| status := 200; body := Scenario.hesitant |}, [Scenario.hesitant_record]) /\
  get_prop Scenario.hesitant "decision" = Normal Scenario.hesitation /\
  get_prop Scenario.hesitation "status" = Normal (JString "Maybe") /\
  JString "Maybe" <> JString "Approved" /\
  JString "Maybe" <> JString "Rejected" /\
  JString "Maybe" <> JString "Pending".
Proof.
  repeat split; try reflexivity; discriminate.
Qed.







(** C8.  On the empty collection the scored list, the primary selection,
    the fallback selection and the retriever's result are all empty, for
    any query vector; and the handler goes on to the decision prompt with
    no evidence instead of throwing. *)
Theorem empty_collection_no_evidence :
  (forall qEmb : list number,
     scored qEmb [] = [] /\
     primary_selection (scored qEmb []) = [] /\
     fallback_selection (scored qEmb []) = [] /\
     usedClauses qEmb [] = []) /\
  (forall (W : World) (q : string) (parseResp : ChatCompletion) (qEmb : list number),
     embeddings W = [] ->
     chat_completions_create W (ParseRequest q) = Normal parseResp ->
     embedText W q = Normal qEmb ->
     assemble W q
     = (decisionResp <- chat_completions_create W
                          (DecisionRequest (parsedQuery W parseResp) []) ;;
        adjudicate W decisionResp (parsedQuery W parseResp) [])).
Proof.
  split.
  - exact empty_collection_selection.
  - intros W q parseResp qEmb Hemp Hparse Hemb.
    unfold assemble. rewrite Hparse. cbn [bind]. rewrite Hemb. cbn [bind].
    rewrite Hemp. reflexivity.
Qed.

Lemma empty_collection_no_evidence_witness :
  assemble Scenario.no_index Scenario.knee
  = (decisionResp <- chat_completions_create Scenario.no_index
                       (DecisionRequest
                          (parsedQuery Scenario.no_index
                             (Scenario.completion Scenario.extraction_ok)) []) ;;
     adjudicate Scenario.no_index decisionResp
       (parsedQuery Scenario.no_index
          (Scenario.completion Scenario.extraction_ok)) []).
Proof.
  apply (proj2 empty_collection_no_evidence Scenario.no_index Scenario.knee
           (Scenario.completion Scenario.extraction_ok) (reals [1; 0]%R));
    reflexivity.
Defined.

(** The request of [Scenario.no_index] is answered: a decision with the
    empty evidence as [clauses_used]. *)
Example no_index_is_answered :
  exists record,
    search Scenario.no_index (Scenario.request Scenario.knee)
    = ({| status := 200;
          body := JObject [("parsed_query",
                            JObject [("procedure", JString "knee surgery")]);
                           ("decision", Scenario.rejection);
                           ("clauses_used", JArray [] [])] |}, [record]).
Proof. eexists. reflexivity. Qed.

(** C9, as the handler has it.  For a body whose [query] property can be
    read, the handler answers with the 400 error exactly when [query] is
    not a non-empty string, that is when it is absent, not a string, or
    the empty string; and for every non-empty string it runs the
    pipeline on that string. *)
Theorem query_validation (W : World) (body query : JSValue) :
  get_prop body "query" = Normal query ->
  (fst (search W body) = bad_request <->
   (forall q, query = JString q -> q = EmptyString)) /\
  (forall q, query = JString q -> q <> EmptyString ->
             search_try W body = pipeline W q).
Proof.
  intros Hq. split.
  - split.
    + intros Hrej q ->.
      destruct q as [|c q]; [reflexivity|]. exfalso.
      unfold search in Hrej.
      rewrite (search_accepts W body (String c q) Hq) in Hrej by discriminate.
      destruct (pipeline W (String c q)) as [[r l]|e] eqn:Hp; cbn [fst] in Hrej.
      * apply pipeline_status in Hp. rewrite Hrej in Hp. discriminate.
      * discriminate.
    + intros Hbad. unfold search, search_try. rewrite Hq. cbn [bind].
      destruct query as [| |b|n|s|elems named|props];
        cbn [falsy is_string negb orb]; try rewrite orb_true_r; try reflexivity.
      rewrite (Hbad s eq_refl). reflexivity.
  - intros q -> Hne. now apply search_accepts.
Qed.

Lemma query_validation_witness :
  fst (search Scenario.outage (JObject [("query", JNumber (Num 7))])) = bad_request /\
  fst (search Scenario.outage (JObject [])) = bad_request /\
  search_try Scenario.outage (Scenario.request Scenario.knee)
  = pipeline Scenario.outage Scenario.knee.
Proof.
  split; [|split].
  - apply (proj1 (query_validation Scenario.outage
                    (JObject [("query", JNumber (Num 7))]) (JNumber (Num 7))
                    eq_refl)).
    intros q H. discriminate H.
  - apply (proj1 (query_validation Scenario.outage (JObject []) JUndefined eq_refl)).
    intros q H. discriminate H.
  - apply (proj2 (query_validation Scenario.outage
                    (Scenario.request Scenario.knee) (JString Scenario.knee)
                    eq_refl)).
    + reflexivity.
    + discriminate.
Defined.

(** C9, counterexample.  The body carries [query], and it is a string,
    the empty one: the handler rejects it with the 400 error and calls
    nothing. *)
Lemma empty_query_is_rejected :
  get_prop (Scenario.request EmptyString) "query" = Normal (JString EmptyString) /\
  is_string (JString EmptyString) = true /\
  search Scenario.outage (Scenario.request EmptyString)
  = ({| status := 400;
        body := JObject [("error", JString "query (string) is required")] |}, []).
Proof. repeat split. Qed.

(* ================================================================== *)
(** * The adjudication parse under the reference [JSON.parse]          *)
(* ================================================================== *)

Section ReferenceParse.

Lemma drop_length_le (n : nat) (s : string) :
  (String.length s - n <= 1)%nat -> (String.length (JSString.drop n s) <= 1)%nat.
Proof.
  revert s. induction n as [|n IH]; intros [|c s]; cbn; intros H; try lia.
  apply IH. lia.
Qed.

(** [txt.slice(-1)] is the last character, if any. *)
Lemma slice_last (s : string) : (String.length (JSString.slice s (-1)) <= 1)%nat.
Proof.
  unfold JSString.slice. cbn [Z.ltb Z.compare].
  apply drop_length_le. lia.
Qed.

Lemma slice_nonneg (s : string) (i : Z) :
  (0 <= i <= Z.of_nat (String.length s))%Z ->
  JSString.slice s i = JSString.drop (Z.to_nat i) s.
Proof.
  intros Hi. unfold JSString.slice.
  replace (i <? 0)%Z with false by (symmetry; apply Z.ltb_ge; lia).
  now rewrite Z.min_l by lia.
Qed.

Lemma indexOf_found (c : ascii) (s : string) :
  (0 <= JSString.indexOf c s)%Z ->
  (JSString.indexOf c s < Z.of_nat (String.length s))%Z /\
  exists r, JSString.drop (Z.to_nat (JSString.indexOf c s)) s = String c r.
Proof.
  induction s as [|d s IH]; cbn [JSString.indexOf String.length]; [lia|].
  destruct (Ascii.eqb_spec c d) as [->|Hne].
  - intros _. split; [lia|]. exists s. reflexivity.
  - destruct (JSString.indexOf c s) as [|p|p] eqn:Hi; try lia; intros _;
      (destruct IH as [Hlt [r Hr]]; [lia|]); (split; [lia|]); exists r.
    + exact Hr.
    + replace (Z.to_nat (Z.pos p + 1)) with (S (Z.to_nat (Z.pos p))) by lia.
      exact Hr.
Qed.

Lemma indexOf_lower (c : ascii) (s : string) :
  (0 <= JSString.indexOf c s)%Z \/ JSString.indexOf c s = (-1)%Z.
Proof.
  induction s as [|d s IH]; cbn [JSString.indexOf]; [now right|].
  destruct (Ascii.eqb c d); [left; lia|].
  destruct (JSString.indexOf c s); [left; lia | left; lia | now right].
Qed.

(** [txt.slice(txt.indexOf('{'))] starts at the first brace, or is at
    most the last character of a text without brace. *)
Lemma slice_at_brace (txt : string) :
  (exists r, JSString.slice txt (JSString.indexOf "{" txt) = String "{" r)
  \/ (String.length (JSString.slice txt (JSString.indexOf "{" txt)) <= 1)%nat.
Proof.
  destruct (indexOf_lower "{" txt) as [Hpos| ->].
  - left. destruct (indexOf_found "{" txt Hpos) as [Hlt [r Hr]].
    exists r. rewrite slice_nonneg by lia. exact Hr.
  - right. apply slice_last.
Qed.

Lemma object_body_shape (value : string -> option (JSValue * string))
    (r rest : string) (v : JSValue) :
  JSON.object_body value r = Some (v, rest) -> exists props, v = JObject props.
Proof.
  unfold JSON.object_body.
  destruct (JSON.skip_ws r) as [|c r'].
  - destruct (JSON.members value _ _ _) as [[ps r0]|]; [|discriminate].
    intros [= <- _]. eauto.
  - destruct c as [[|] [|] [|] [|] [|] [|] [|] [|]];
      try (intros [= <- _]; eauto);
      (destruct (JSON.members value _ _ _) as [[ps r0]|]; [|discriminate];
       intros [= <- _]; eauto).
Qed.

(** A text that starts with a brace parses to an object, or not at all. *)
Lemma parse_brace (r : string) (v : JSValue) :
  JSON.parse (String "{" r) = Normal v -> exists props, v = JObject props.
Proof.
  unfold JSON.parse.
  change (JSON.value (S (String.length (String "{" r))) (String "{" r))
    with (JSON.object_body (JSON.value (String.length (String "{" r))) r).
  destruct (JSON.object_body _ r) as [[v' rest]|] eqn:Hb; [|discriminate].
  destruct (JSON.skip_ws rest); [|discriminate].
  intros [= <-]. eapply object_body_shape; eauto.
Qed.

(** A text of at most one character parses only when it is a digit. *)
Lemma parse_short (s : string) (v : JSValue) :
  (String.length s <= 1)%nat ->
  JSON.parse s = Normal v -> exists n, v = JNumber n.
Proof.
  destruct s as [|c [|d s]]; cbn [String.length]; try lia; intros _.
  - cbv. discriminate.
  - destruct c as [[|] [|] [|] [|] [|] [|] [|] [|]];
      try (cbv; discriminate);
      (intros H;
       apply (f_equal (fun o => match o with
                                | Normal (JNumber _) => true
                                | _ => false
                                end)) in H;
       cbv in H; destruct v; try discriminate H; eauto).
Qed.

(** With the reference parser the second [try] yields an object, or the
    number read from a lone trailing digit. *)
Lemma reference_decision_shape (W : World) (decisionResp : ChatCompletion)
    (v : JSValue) :
  JSON_parse W = JSON.parse ->
  parse_decision W decisionResp = Normal v ->
  (exists props, v = JObject props) \/ (exists n, v = JNumber n).
Proof.
  intros HW. unfold parse_decision. rewrite HW.
  destruct (message_content decisionResp) as [txt|]; [|discriminate].
  cbn [bind].
  destruct (slice_at_brace (strip_fences txt)) as [[r ->]|Hshort]; intros Hp.
  - left. now apply parse_brace with r.
  - right. eapply parse_short; eauto.
Qed.

(** So whenever the adjudication step returns, it returns an object. *)
Lemma reference_adjudicate_object (W : World) (decisionResp : ChatCompletion)
    (pq : JSValue) (used : list Clause.t) (fj : JSValue) :
  JSON_parse W = JSON.parse ->
  adjudicate W decisionResp pq used = Normal fj ->
  exists props, fj = JObject props.
Proof.
  intros HW. unfold adjudicate.
  destruct (parse_decision W decisionResp) as [v|e] eqn:Hp; cbn [try_catch].
  - destruct (reference_decision_shape W decisionResp v HW Hp)
      as [[props ->]|[n ->]].
    + destruct (repair_object props used) as (props' & -> & _).
      intros [= <-]. eauto.
    + cbn. discriminate.
  - rewrite repair_fallback. intros [= <-]. unfold fallback_decision. eauto.
Qed.

End ReferenceParse.

(** A decision text without brace is cut to its last character
    ([indexOf] gives -1).  When that character is a digit the parse
    succeeds with a number, on which the assignment of [clauses_used]
    throws: the request ends with the 500 error. *)
Remark digit_tail_is_parsed :
  strip_fences "See CLAUSE_3" = "See CLAUSE_3" /\
  JSString.indexOf "{" "See CLAUSE_3" = (-1)%Z /\
  JSString.slice "See CLAUSE_3" (-1) = "3" /\
  parse_decision (Scenario.world Scenario.extraction_ok "See CLAUSE_3"
                    Scenario.store_up Scenario.unrelated)
    (Scenario.completion "See CLAUSE_3")
  = Normal (JNumber (Num 3)) /\
  repair (JNumber (Num 3)) Scenario.evidence
  = Throw (TypeError "Cannot create property 'clauses_used'").
Proof. repeat split. Qed.


(* ================================================================== *)
(** * More on [cosine]                                                 *)
(* ================================================================== *)

Section CosineAlgebra.

Lemma mul_comm (x y : number) : mul x y = mul y x.
Proof. destruct x, y; cbn; try reflexivity. f_equal. apply Rmult_comm. Qed.

(** Swapping the arguments swaps the two norms and keeps the dot
    product. *)
Lemma cosine_upto_swap (a b : list number) (k : nat) :
  cosine_upto b a k = (let '(dot, na, nb) := cosine_upto a b k in (dot, nb, na)).
Proof.
  induction k as [|k IH]; [reflexivity|].
  rewrite !cosine_upto_S, IH.
  destruct (cosine_upto a b k) as [[dot na] nb]. cbn [cosine_step].
  now rewrite (mul_comm (at_index b k)).
Qed.

Lemma at_index_firstn (v : list number) (n i : nat) :
  (i < n)%nat -> at_index (firstn n v) i = at_index v i.
Proof.
  intros Hi. unfold at_index. rewrite nth_firstn.
  apply Nat.ltb_lt in Hi. now rewrite Hi.
Qed.

Lemma cosine_upto_firstn (a b : list number) (n k : nat) :
  (k <= n)%nat -> cosine_upto a (firstn n b) k = cosine_upto a b k.
Proof.
  induction k as [|k IH]; intros Hk; [reflexivity|].
  rewrite !cosine_upto_S, IH by lia.
  unfold cosine_step. destruct (cosine_upto a b k) as [[dot na] nb].
  now rewrite at_index_firstn by lia.
Qed.


End CosineAlgebra.

(** X1.  [cosine] is symmetric on vectors of equal length, whatever
    their components (NaN included). *)
Theorem cosine_symmetric (a b : list number) :
  List.length a = List.length b -> cosine a b = cosine b a.
Proof.
  intros Hlen. unfold cosine, cosine_loop.
  rewrite <- Hlen, (cosine_upto_swap a b).
  destruct (cosine_upto a b (List.length a)) as [[dot na] nb].
  unfold denominator. now rewrite (mul_comm (Math_sqrt nb)).
Qed.

Lemma cosine_symmetric_witness :
  cosine (reals [3; 4]%R) [NaN; Num 1] = cosine [NaN; Num 1] (reals [3; 4]%R).
Proof. apply cosine_symmetric. reflexivity. Defined.

(** X4.  [cosine a b] reads [b] only below [a.length]: components of [b]
    past the length of the query vector do not change the score. *)
Theorem cosine_reads_prefix (a b : list number) :
  cosine a b = cosine a (firstn (List.length a) b).
Proof. unfold cosine, cosine_loop. now rewrite cosine_upto_firstn. Qed.

(* ================================================================== *)
(** * More on the clause selection                                     *)
(* ================================================================== *)

Section SelectionOrder.



Lemma in_select (sc : list Scored.t) (c : Clause.t) :
  In c (select_clauses sc) -> exists s, In s sc /\ c = to_clause s.
Proof.
  unfold select_clauses.
  assert (Hprim : In c (primary_selection sc) -> exists s, In s sc /\ c = to_clause s).
  { unfold primary_selection. intros Hc.
    apply filter_In in Hc as [Hc _]. apply in_map_iff in Hc as (s & <- & Hs).
    apply in_firstn in Hs. apply filter_In in Hs as [Hs _]. eauto. }
  destruct (primary_selection sc) as [|c0 l] eqn:Hp.
  - unfold fallback_selection. intros Hc.
    apply in_map_iff in Hc as (s & <- & Hs). apply in_firstn in Hs. eauto.
  - exact Hprim.
Qed.

Lemma geb_at_least (x y : number) : geb x y = true -> at_least x y.
Proof.
  destruct x as [|a], y as [|b]; cbn; try discriminate.
  destruct (Rle_dec b a); [intros _; lra | discriminate].
Qed.






End SelectionOrder.

(** X5.  The retriever returns no clause exactly when the collection is
    empty: a non-empty collection always yields some evidence. *)
Theorem evidence_iff_collection (qEmb : list number) (coll : list Fragment.t) :
  usedClauses qEmb coll = [] <-> coll = [].
Proof.
  split.
  - intros Hnil. destruct coll as [|e coll]; [reflexivity|]. exfalso.
    unfold usedClauses, select_clauses in Hnil.
    destruct (primary_selection _) as [|c l] eqn:Hp; [|discriminate].
    apply (f_equal (@List.length _)) in Hnil.
    rewrite length_fallback, length_scored in Hnil. cbn in Hnil. discriminate.
  - intros ->. reflexivity.
Qed.

Lemma evidence_iff_collection_witness :
  usedClauses (reals [1; 0]%R) Scenario.unrelated <> [].
Proof.
  intros H. apply (evidence_iff_collection (reals [1; 0]%R) Scenario.unrelated) in H.
  discriminate H.
Defined.

(** X6.  Every returned clause is the projection of a fragment of the
    collection: its dataset, reference and excerpt are the fragment's
    [dataset], [id] and [text], and its score is the cosine of the
    query vector with the fragment's embedding. *)
Theorem clauses_come_from_collection (qEmb : list number) (coll : list Fragment.t)
    (c : Clause.t) :
  In c (usedClauses qEmb coll) ->
  exists e, In e coll /\
    Clause.dataset c = Fragment.dataset e /\
    Clause.clause_ref c = Fragment.id e /\
    Clause.excerpt c = Fragment.text e /\
    Clause.score c = cosine qEmb (Fragment.embedding e).
Proof.
  intros Hc. apply in_select in Hc as (s & Hs & ->).
  unfold scored in Hs. apply in_sort in Hs. apply in_map_iff in Hs as (e & <- & He).
  exists e. repeat split; auto.
Qed.

Lemma clauses_come_from_collection_witness :
  exists c e,
    In c (usedClauses (reals [1; 0]%R) Scenario.relevant) /\
    In e Scenario.relevant /\
    Clause.clause_ref c = Fragment.id e /\
    Clause.score c = cosine (reals [1; 0]%R) (Fragment.embedding e).
Proof.
  destruct relevant_primary_path as (s & _ & Heq).
  assert (Hin : In {| Clause.dataset := "policy.pdf";
                      Clause.clause_ref := "policy.pdf::3";
                      Clause.excerpt :=
                        "Knee surgery is excluded during the first two policy years.";
                      Clause.score := Num s |}
                   (usedClauses (reals [1; 0]%R) Scenario.relevant))
    by (rewrite Heq; now left).
  destruct (clauses_come_from_collection _ _ _ Hin) as (e & He & _ & Hid & _ & Hsc).
  eexists _, e. repeat split; eauto.
Defined.

(** X7.  Every clause of the primary selection scores at least
    [MIN_SIMILARITY] and has a non-empty excerpt. *)
Theorem primary_above_threshold (sc : list Scored.t) :
  Forall (fun c => at_least (Clause.score c) MIN_SIMILARITY /\
                   Clause.excerpt c <> EmptyString)
         (primary_selection sc).
Proof.
  apply Forall_forall. intros c Hc. unfold primary_selection in Hc.
  apply filter_In in Hc as [Hc Hlong]. apply in_map_iff in Hc as (s & <- & Hs).
  apply in_firstn in Hs. apply filter_In in Hs as [_ Hs].
  split; [now apply geb_at_least|].
  unfold long_enough in Hlong. apply andb_true_iff in Hlong as [Hne _].
  cbn [Clause.excerpt to_clause] in *.
  destruct (Fragment.text (Scored.item s)); discriminate.
Qed.





(* ================================================================== *)
(** * More on the route                                                *)
(* ================================================================== *)

Section RouteCases.

Lemma is_zero_false_length (elems : list JSValue) :
  is_zero (JNumber (of_nat (List.length elems))) = false -> elems <> [].
Proof. rewrite is_zero_length. destruct elems; cbn; discriminate. Qed.

(** After the repair of an object, [clauses_used] is truthy, it is not
    an empty array when there is evidence, and the other properties are
    those of the object. *)
Lemma repair_object_grounded (props : Props) (used : list Clause.t) :
  exists props',
    repair (JObject props) used = Normal (JObject props') /\
    falsy (own "clauses_used" props') = false /\
    (forall elems named,
       own "clauses_used" props' = JArray elems named -> used <> [] -> elems <> []) /\
    (forall k, k <> "clauses_used" -> own k props' = own k props).
Proof.
  assert (Hrepl : forall p', p' = update "clauses_used" (clauses_value used) props ->
            falsy (own "clauses_used" p') = false /\
            (forall elems named,
               own "clauses_used" p' = JArray elems named -> used <> [] -> elems <> []) /\
            (forall k, k <> "clauses_used" -> own k p' = own k props)).
  { intros p' ->. rewrite own_update_same. split; [reflexivity|]. split.
    - intros elems named [= <- _] Hne. now destruct used.
    - intros k Hk. apply own_update_other. congruence. }
  unfold repair. cbn [get_prop bind].
  destruct (falsy (own "clauses_used" props)) eqn:Hf.
  - eexists. split; [reflexivity|]. now apply Hrepl.
  - destruct (own "clauses_used" props) as [| |b|n|s|elems named|ps] eqn:Hcu;
      try discriminate Hf; cbn [get_prop String.eqb Ascii.eqb Bool.eqb bind].
    + cbn. eexists; split; [reflexivity|]. rewrite Hcu.
      repeat split; auto; discriminate.
    + cbn. eexists; split; [reflexivity|]. rewrite Hcu.
      repeat split; auto; discriminate.
    + destruct (is_zero _); (eexists; split; [reflexivity|]);
        [now apply Hrepl|]. rewrite Hcu. repeat split; auto; discriminate.
    + destruct (is_zero _) eqn:Hz; (eexists; split; [reflexivity|]);
        [now apply Hrepl|]. rewrite Hcu. repeat split; auto.
      intros elems' named' [= <- <-] _. now apply is_zero_false_length.
    + destruct (is_zero _); (eexists; split; [reflexivity|]);
        [now apply Hrepl|]. rewrite Hcu. repeat split; auto; discriminate.
Qed.

Lemma audit_record_fields (q : string) (fj : JSValue) (record : AuditRecord.t) :
  audit_record q fj = Normal record ->
  AuditRecord.query record = q /\
  get_prop fj "parsed_query" = Normal (AuditRecord.parsed_query record) /\
  get_prop fj "decision" = Normal (AuditRecord.decision record) /\
  get_prop fj "clauses_used" = Normal (AuditRecord.clauses_used record).
Proof.
  unfold audit_record.
  destruct (get_prop fj "parsed_query") as [pq|]; [|discriminate]. cbn [bind].
  destruct (get_prop fj "decision") as [d|]; [|discriminate]. cbn [bind].
  destruct (get_prop fj "clauses_used") as [cu|]; [|discriminate]. cbn [bind].
  intros [= <-]. repeat split.
Qed.

Lemma pipeline_normal (W : World) (q : string) (r : Response)
    (log : list AuditRecord.t) :
  pipeline W q = Normal (r, log) ->
  exists fj record,
    assemble W q = Normal fj /\ audit_record q fj = Normal record /\
    QueryLog_create W record = Normal tt /\
    r = {| status := 200; body := fj |} /\ log = [record].
Proof.
  unfold pipeline.
  destruct (assemble W q) as [fj|]; [|discriminate]. cbn [bind].
  destruct (audit_record q fj) as [record|] eqn:Hrec; [|discriminate]. cbn [bind].
  destruct (QueryLog_create W record) as [[]|] eqn:Hlog; [|discriminate].
  cbn [bind]. intros [= <- <-]. exists fj, record. repeat split; assumption.
Qed.

(** The three ways the route ends. *)
Lemma search_cases (W : World) (body : JSValue) (r : Response)
    (log : list AuditRecord.t) :
  search W body = (r, log) ->
  (r = bad_request /\ log = []) \/
  (exists e, r = server_error e /\ log = []) \/
  (exists q, get_prop body "query" = Normal (JString q) /\ q <> EmptyString /\
             pipeline W q = Normal (r, log)).
Proof.
  unfold search, search_try.
  destruct (get_prop body "query") as [query|e] eqn:Hq; cbn [bind].
  - destruct (falsy query || negb (is_string query)) eqn:Hguard.
    + intros [= <- <-]. now left.
    + destruct query as [| |b|n|s|elems named|props];
        cbn [falsy is_string negb] in Hguard; rewrite ?orb_true_r in Hguard;
        try discriminate Hguard.
      destruct s as [|c s]; [discriminate Hguard|]. cbn [string_of].
      destruct (pipeline W (String c s)) as [[r' log']|e] eqn:Hp.
      * intros [= <- <-]. right. right. exists (String c s).
        repeat split; auto. discriminate.
      * intros [= <- <-]. right. left. eauto.
  - intros [= <- <-]. right. left. eauto.
Qed.

Lemma assemble_adjudicated (W : World) (q : string) (fj : JSValue) :
  assemble W q = Normal fj ->
  exists decisionResp pq used, adjudicate W decisionResp pq used = Normal fj.
Proof.
  unfold assemble.
  destruct (chat_completions_create W (ParseRequest q)) as [parseResp|];
    [|discriminate].
  cbn [bind]. destruct (embedText W q) as [qEmb|]; [|discriminate]. cbn [bind].
  destruct (chat_completions_create W _) as [decisionResp|]; [|discriminate].
  cbn [bind]. eauto.
Qed.

End RouteCases.

(** X10.  When the adjudication output parses to an object, the step
    never throws, and in its result [clauses_used] is truthy, is not an
    empty array as long as there is evidence, and every other property
    of the parsed object is untouched. *)
Theorem parsed_object_keeps_grounding (W : World) (decisionResp : ChatCompletion)
    (pq : JSValue) (used : list Clause.t) (props : Props) :
  parse_decision W decisionResp = Normal (JObject props) ->
  exists props',
    adjudicate W decisionResp pq used = Normal (JObject props') /\
    falsy (own "clauses_used" props') = false /\
    (forall elems named,
       own "clauses_used" props' = JArray elems named -> used <> [] -> elems <> []) /\
    (forall k, k <> "clauses_used" -> own k props' = own k props).
Proof.
  intros Hparse. unfold adjudicate. rewrite Hparse. cbn [try_catch].
  destruct (repair_object_grounded props used) as (props' & Hr & Hrest).
  exists props'. split; [exact Hr | exact Hrest].
Qed.

Lemma parsed_object_keeps_grounding_witness :
  exists props',
    adjudicate Scenario.undecided (Scenario.completion Scenario.decision_maybe)
      (JObject []) Scenario.evidence = Normal (JObject props') /\
    falsy (own "clauses_used" props') = false /\
    own "decision" props' = Scenario.hesitation.
Proof.
  destruct (parsed_object_keeps_grounding Scenario.undecided
              (Scenario.completion Scenario.decision_maybe) (JObject [])
              Scenario.evidence
              [("parsed_query", JObject []); ("decision", Scenario.hesitation)]
              eq_refl) as (props' & Hadj & Hf & _ & Hkeep).
  exists props'. repeat split; auto.
  rewrite Hkeep by discriminate. reflexivity.
Defined.

(** X11.  The route ends in one of three ways: the 400 error, a 500
    error, or status 200.  Nothing is appended to the audit store in
    the first two; with status 200 exactly one record was appended, and
    it holds the request's query and the [parsed_query], [decision] and
    [clauses_used] of the response body. *)
Theorem response_shapes (W : World) (body : JSValue) (r : Response)
    (log : list AuditRecord.t) :
  search W body = (r, log) ->
  (r = bad_request /\ log = []) \/
  (exists e, r = server_error e /\ log = []) \/
  (exists q fj record,
     get_prop body "query" = Normal (JString q) /\
     r = {| status := 200; body := fj |} /\ log = [record] /\
     QueryLog_create W record = Normal tt /\
     AuditRecord.query record = q /\
     get_prop fj "parsed_query" = Normal (AuditRecord.parsed_query record) /\
     get_prop fj "decision" = Normal (AuditRecord.decision record) /\
     get_prop fj "clauses_used" = Normal (AuditRecord.clauses_used record)).
Proof.
  intros Hs. destruct (search_cases W body r log Hs) as [H|[H|(q & Hq & _ & Hp)]];
    [now left | now right; left |]. right. right.
  apply pipeline_normal in Hp as (fj & record & _ & Hrec & Hlog & -> & ->).
  destruct (audit_record_fields _ _ _ Hrec) as (H1 & H2 & H3 & H4).
  exists q, fj, record. repeat split; auto.
Qed.

Lemma response_shapes_witness :
  (fst (search Scenario.undecided (Scenario.request Scenario.knee)) = bad_request /\
   snd (search Scenario.undecided (Scenario.request Scenario.knee)) = []) \/
  (exists e, fst (search Scenario.undecided (Scenario.request Scenario.knee))
             = server_error e /\
             snd (search Scenario.undecided (Scenario.request Scenario.knee)) = []) \/
  (exists q fj record,
     get_prop (Scenario.request Scenario.knee) "query" = Normal (JString q) /\
     fst (search Scenario.undecided (Scenario.request Scenario.knee))
     = {| status := 200; body := fj |} /\
     snd (search Scenario.undecided (Scenario.request Scenario.knee)) = [record] /\
     QueryLog_create Scenario.undecided record = Normal tt /\
     AuditRecord.query record = q /\
     get_prop fj "parsed_query" = Normal (AuditRecord.parsed_query record) /\
     get_prop fj "decision" = Normal (AuditRecord.decision record) /\
     get_prop fj "clauses_used" = Normal (AuditRecord.clauses_used record)).
Proof.
  apply (response_shapes Scenario.undecided (Scenario.request Scenario.knee)).
  apply surjective_pairing.
Defined.

(** X12.  Once the request is accepted, a failure of the extraction
    call, of the embedding of the query, or of the adjudication call
    ends the request with status 500 carrying that error, and nothing
    is appended to the audit store. *)
Theorem service_failure_is_reported (W : World) (body : JSValue) (q : string)
    (e : exn) :
  get_prop body "query" = Normal (JString q) -> q <> EmptyString ->
  chat_completions_create W (ParseRequest q) = Throw e \/
  (exists parseResp,
     chat_completions_create W (ParseRequest q) = Normal parseResp /\
     (embedText W q = Throw e \/
      exists qEmb,
        embedText W q = Normal qEmb /\
        chat_completions_create W
          (DecisionRequest (parsedQuery W parseResp)
             (usedClauses qEmb (embeddings W))) = Throw e)) ->
  search W body = (server_error e, []).
Proof.
  intros Hq Hne Hfail. unfold search. rewrite (search_accepts W body q Hq Hne).
  unfold pipeline, assemble.
  destruct Hfail as [Hp|(parseResp & Hp & [He|(qEmb & He & Hd)])]; rewrite Hp;
    cbn [bind]; [reflexivity | |]; rewrite He; cbn [bind]; [reflexivity|].
  now rewrite Hd.
Qed.

Lemma service_failure_is_reported_witness :
  search Faults.embedder_down (Scenario.request Scenario.knee)
  = (server_error Faults.onnx_error, []) /\
  search Faults.decision_down (Scenario.request Scenario.knee)
  = (server_error Faults.rate_limit, []).
Proof.
  split.
  - apply (service_failure_is_reported Faults.embedder_down
             (Scenario.request Scenario.knee) Scenario.knee);
      [reflexivity | discriminate |].
    right. exists (Scenario.completion Scenario.extraction_ok).
    split; [reflexivity | left; reflexivity].
  - apply (service_failure_is_reported Faults.decision_down
             (Scenario.request Scenario.knee) Scenario.knee);
      [reflexivity | discriminate |].
    right. exists (Scenario.completion Scenario.extraction_ok).
    split; [reflexivity | right]. exists (reals [1; 0]%R).
    split; reflexivity.
Defined.

(** X13.  With the reference JSON parser, every response of status 200
    has an object as its body, and the [clauses_used] of that object is
    truthy: it is never missing, null or false. *)
Theorem reference_answers_are_grounded (W : World) (req : JSValue) (r : Response)
    (log : list AuditRecord.t) :
  JSON_parse W = JSON.parse ->
  search W req = (r, log) -> status r = 200%nat ->
  exists props,
    body r = JObject props /\
    falsy (own "clauses_used" props) = false.
Proof.
  intros HW Hs H200.
  destruct (search_cases W req r log Hs) as [[-> _]|[[e [-> _]]|Hok]];
    try discriminate H200.
  destruct Hok as (q & _ & _ & Hp).
  apply pipeline_normal in Hp as (fj & record & Hfj & _ & _ & -> & _).
  apply assemble_adjudicated in Hfj as (decisionResp & pq & used & Hadj).
  unfold adjudicate in Hadj.
  destruct (parse_decision W decisionResp) as [v|e] eqn:Hp; cbn [try_catch] in Hadj.
  - destruct (reference_decision_shape W decisionResp v HW Hp) as [[props ->]|[n ->]].
    + destruct (repair_object_grounded props used) as (props' & Hr & Hf & _).
      rewrite Hr in Hadj. injection Hadj as <-. exists props'.
      split; [reflexivity | exact Hf].
    + cbn in Hadj. discriminate.
  - rewrite repair_fallback in Hadj. injection Hadj as <-.
    eexists. split; [reflexivity|]. reflexivity.
Qed.

Lemma reference_answers_are_grounded_witness :
  exists props,
    body (fst (search Scenario.undecided (Scenario.request Scenario.knee)))
    = JObject props /\
    falsy (own "clauses_used" props) = false.
Proof.
  apply (reference_answers_are_grounded Scenario.undecided
           (Scenario.request Scenario.knee) _
           (snd (search Scenario.undecided (Scenario.request Scenario.knee))));
    [reflexivity | apply surjective_pairing | reflexivity].
Defined.

(* ================================================================== *)
(** * The text handed to the parser                                    *)
(* ================================================================== *)

Section Fences.

Local Open Scope string_scope.

Lemma append_empty (s : string) : s ++ EmptyString = s.
Proof. induction s; cbn; congruence. Qed.

Lemma app_assoc_string (a b c : string) : (a ++ b) ++ c = a ++ b ++ c.
Proof. induction a; cbn; congruence. Qed.

Lemma length_app_string (a t : string) :
  String.length (a ++ t) = (String.length a + String.length t)%nat.
Proof. induction a; cbn; auto. Qed.

Lemma some_char_app (p : ascii -> bool) (s t : string) :
  some_char p (s ++ t) = some_char p s || some_char p t.
Proof. induction s as [|c s IH]; cbn; [reflexivity|]. now rewrite IH, orb_assoc. Qed.

Lemma prefix_other (pat s : string) (c : ascii) :
  Ascii.eqb "`"%char c = false -> prefix (String "`"%char pat) (String c s) = false.
Proof.
  intros Hc. cbn [prefix]. destruct (ascii_dec "`"%char c) as [E|_]; [|reflexivity].
  rewrite <- E, Ascii.eqb_refl in Hc. discriminate.
Qed.

(** A text without backtick is copied by the removal of a fence. *)
Lemma remove_from_free (pat s t : string) :
  some_char (Ascii.eqb "`"%char) s = false ->
  JSString.remove_from (String "`"%char pat) 0 (s ++ t)
  = s ++ JSString.remove_from (String "`"%char pat) 0 t.
Proof.
  induction s as [|c s IH]; [reflexivity|].
  intros Hs. cbn [some_char] in Hs. apply orb_false_iff in Hs as [Hc Hs].
  cbn [append JSString.remove_from].
  rewrite (prefix_other _ _ _ Hc). now rewrite IH.
Qed.

Lemma strip_plain (body : string) :
  some_char (Ascii.eqb "`"%char) body = false -> strip_fences body = JSString.trim body.
Proof.
  intros Hb. unfold strip_fences, JSString.remove_all.
  rewrite <- (append_empty body) at 1.
  rewrite (remove_from_free _ body EmptyString Hb). cbn [JSString.remove_from].
  rewrite (remove_from_free _ body EmptyString Hb). cbn [JSString.remove_from].
  now rewrite !append_empty.
Qed.

Lemma closing_fence_json :
  JSString.remove_from "```json" 0 "```" = "```".
Proof. reflexivity. Qed.

Lemma closing_fence :
  JSString.remove_from "```" 0 "```" = EmptyString.
Proof. reflexivity. Qed.

Lemma prefix_app (p s : string) : prefix p (p ++ s) = true.
Proof.
  induction p as [|c p IH]; cbn [append prefix]; [now destruct s|].
  destruct (ascii_dec c c); [exact IH | congruence].
Qed.

(** A match at the head is dropped. *)
Lemma remove_from_head (c : ascii) (pat s : string) :
  JSString.remove_from (String c pat) 0 (String c pat ++ s)
  = JSString.remove_from (String c pat) (String.length pat) (pat ++ s).
Proof.
  cbn [append JSString.remove_from].
  change (String c (pat ++ s)) with (String c pat ++ s).
  rewrite prefix_app.
  now replace (String.length (String c pat) - 1)%nat with (String.length pat)
    by (cbn [String.length]; lia).
Qed.

Lemma trim_start_app (pre : string) (c : ascii) (r : string) :
  JSString.is_whitespace c = false ->
  JSString.trim_start (pre ++ String c r) = JSString.trim_start pre ++ String c r.
Proof.
  intros Hc. induction pre as [|d pre IH]; cbn [append JSString.trim_start].
  - now rewrite Hc.
  - destruct (JSString.is_whitespace d); [exact IH | reflexivity].
Qed.

Lemma trim_end_solid (c : ascii) (r : string) :
  JSString.is_whitespace c = false ->
  exists r', JSString.trim_end (String c r) = String c r'.
Proof.
  intros Hc. cbn [JSString.trim_end]. rewrite Hc.
  destruct (JSString.trim_end r); eauto.
Qed.

Lemma trim_end_app (s t : string) :
  JSString.trim_end t <> EmptyString ->
  JSString.trim_end (s ++ t) = s ++ JSString.trim_end t.
Proof.
  intros Ht. induction s as [|c s IH]; [reflexivity|].
  cbn [append JSString.trim_end]. rewrite IH.
  destruct (s ++ JSString.trim_end t) eqn:E; [|reflexivity].
  destruct s; cbn in E; [congruence | discriminate].
Qed.

Lemma some_char_trim_start (p : ascii -> bool) (s : string) :
  some_char p s = false -> some_char p (JSString.trim_start s) = false.
Proof.
  induction s as [|c s IH]; [auto|]. cbn [some_char JSString.trim_start].
  intros H. apply orb_false_iff in H as [Hc Hs].
  destruct (JSString.is_whitespace c); [auto|]. cbn. now rewrite Hc, Hs.
Qed.

Lemma some_char_trim_end (p : ascii -> bool) (s : string) :
  some_char p s = false -> some_char p (JSString.trim_end s) = false.
Proof.
  induction s as [|c s IH]; [auto|]. cbn [some_char JSString.trim_end].
  intros H. apply orb_false_iff in H as [Hc Hs]. specialize (IH Hs).
  destruct (JSString.trim_end s) as [|d r'].
  - destruct (JSString.is_whitespace c); [reflexivity|]. cbn. now rewrite Hc.
  - cbn [some_char]. cbn [some_char] in IH. now rewrite Hc, IH.
Qed.



Lemma indexOf_app (c : ascii) (a rest : string) :
  some_char (Ascii.eqb c) a = false ->
  JSString.indexOf c (a ++ String c rest) = Z.of_nat (String.length a).
Proof.
  induction a as [|d a IH]; cbn [append JSString.indexOf String.length some_char].
  - intros _. now rewrite Ascii.eqb_refl.
  - intros H. apply orb_false_iff in H as [Hd Ha]. rewrite Hd, IH by exact Ha.
    destruct (String.length a); cbn; lia.
Qed.


Lemma drop_app (a t : string) : JSString.drop (String.length a) (a ++ t) = t.
Proof. induction a; cbn; auto. Qed.

(** The cut at the first brace of a trimmed text. *)
Lemma cut_at_brace (a rest : string) :
  some_char (Ascii.eqb "{") a = false ->
  let s := JSString.trim (a ++ String "{" rest) in
  JSString.slice s (JSString.indexOf "{" s) = JSString.trim_end (String "{" rest).
Proof.
  intros Ha. cbn zeta. unfold JSString.trim.
  rewrite trim_start_app by reflexivity.
  destruct (trim_end_solid "{" rest eq_refl) as [r' Hr'].
  rewrite trim_end_app by (rewrite Hr'; discriminate).
  rewrite Hr'.
  rewrite indexOf_app by now apply some_char_trim_start.
  rewrite slice_nonneg by (rewrite length_app_string; lia).
  rewrite Nat2Z.id. apply drop_app.
Qed.

(** X14.  Whatever precedes the first brace of the adjudication output
    is discarded, and so is a Markdown fence around the object: with a
    text free of backticks, and prose [pre], [mid] free of braces, the
    parser is called on the text from the first brace on, trailing white
    space removed, with and without the fence. *)
Theorem decision_object_is_extracted (W : World) (resp : ChatCompletion)
    (pre mid rest : string) :
  some_char (Ascii.eqb "`") (pre ++ mid ++ rest) = false ->
  some_char (Ascii.eqb "{") (pre ++ mid) = false ->
  (message_content resp = Normal (pre ++ mid ++ String "{" rest) ->
   parse_decision W resp = JSON_parse W (JSString.trim_end (String "{" rest))) /\
  (message_content resp
   = Normal (pre ++ "```json" ++ mid ++ String "{" rest ++ "```") ->
   parse_decision W resp = JSON_parse W (JSString.trim_end (String "{" rest))).
Proof.
  intros Htick Hbrace.
  rewrite !some_char_app in Htick.
  apply orb_false_iff in Htick as [Hpre Htick].
  apply orb_false_iff in Htick as [Hmid Hrest].
  assert (Hbody : some_char (Ascii.eqb "`") (mid ++ String "{" rest) = false).
  { rewrite some_char_app. cbn [some_char]. rewrite Hmid, Hrest. reflexivity. }
  assert (Hall : some_char (Ascii.eqb "`") (pre ++ mid ++ String "{" rest) = false).
  { rewrite some_char_app, Hpre. exact Hbody. }
  assert (Hcut : JSON_parse W
                   (JSString.slice (JSString.trim (pre ++ mid ++ String "{" rest))
                      (JSString.indexOf "{"
                         (JSString.trim (pre ++ mid ++ String "{" rest))))
                 = JSON_parse W (JSString.trim_end (String "{" rest))).
  { rewrite <- app_assoc_string. now rewrite (cut_at_brace (pre ++ mid) rest Hbrace). }
  split; intros Hmsg; unfold parse_decision; rewrite Hmsg; cbn [bind].
  - rewrite (strip_plain _ Hall). exact Hcut.
  - assert (Hstrip : strip_fences
                       (pre ++ "```json" ++ mid ++ String "{" rest ++ "```")
                     = JSString.trim (pre ++ mid ++ String "{" rest)).
    { unfold strip_fences, JSString.remove_all.
      rewrite (remove_from_free _ pre _ Hpre).
      rewrite (remove_from_head "`" "``json").
      change (JSString.remove_from "```json" (String.length "``json")
                ("``json" ++ mid ++ String "{" rest ++ "```"))
        with (JSString.remove_from "```json" 0
                (mid ++ String "{" (rest ++ "```"))).
      change (String "{" (rest ++ "```")) with (String "{" rest ++ "```").
      rewrite <- (app_assoc_string mid).
      rewrite (remove_from_free _ _ _ Hbody), closing_fence_json.
      rewrite <- (app_assoc_string pre).
      rewrite (remove_from_free "``" (pre ++ (mid ++ String "{" rest)) "```")
        by (rewrite some_char_app, Hpre; exact Hbody).
      rewrite closing_fence, append_empty. reflexivity. }
    rewrite Hstrip. exact Hcut.
Qed.

Lemma decision_object_is_extracted_witness :
  parse_decision Scenario.undecided
    (Scenario.completion ("Here is the decision. " ++ "
" ++ String "{" "}
"))
  = JSON.parse "{}" /\
  parse_decision Scenario.undecided
    (Scenario.completion ("Here is the decision. " ++ "```json" ++ "
" ++ String "{" "}
" ++ "```"))
  = JSON.parse "{}".
Proof.
  destruct (decision_object_is_extracted Scenario.undecided
              (Scenario.completion ("Here is the decision. " ++ "
" ++ String "{" "}
"))
              "Here is the decision. " "
" "}
" eq_refl eq_refl) as [Hplain _].
  destruct (decision_object_is_extracted Scenario.undecided
              (Scenario.completion ("Here is the decision. " ++ "```json" ++ "
" ++ String "{" "}
" ++ "```"))
              "Here is the decision. " "
" "}
" eq_refl eq_refl) as [_ Hfenced].
  split; [exact (Hplain eq_refl) | exact (Hfenced eq_refl)].
Defined.



End Fences.

(* ================================================================== *)
(** * Properties of [chunkText]                                        *)
(* ================================================================== *)

Section ChunkFacts.

Import Indexer.
Local Open Scope string_scope.

Lemma pieces_nonempty (gap : bool) (s : string) : pieces gap s <> [].
Proof.
  revert gap. induction s as [|c s IH]; intros gap; cbn; [discriminate|].
  destruct (JSString.is_whitespace c).
  - destruct gap; [apply IH | discriminate].
  - destruct (pieces false s); discriminate.
Qed.

(** [split] never returns the empty array. *)
Lemma split_length (text : string) : (1 <= List.length (split text))%nat.
Proof.
  unfold split. pose proof (pieces_nonempty false text).
  destruct (pieces false text); [congruence | cbn; lia].
Qed.

(** The loop with a positive step, entered inside the array with a turn
    left for every remaining word. *)
Lemma chunk_loop_spec (words : list string) (chunkSize step : nat) :
  (0 < step <= chunkSize)%nat ->
  forall fuel i,
    (i < List.length words)%nat -> (List.length words - i <= fuel)%nat ->
    exists chunks,
      chunk_loop fuel words chunkSize step i = Some chunks /\
      (1 <= List.length chunks)%nat /\
      (forall k, (k < List.length chunks)%nat ->
         nth k chunks EmptyString = join (window words (i + k * step) chunkSize)) /\
      (forall k, (S k < List.length chunks)%nat ->
         (i + k * step + chunkSize < List.length words)%nat) /\
      (i + (List.length chunks - 1) * step < List.length words)%nat /\
      (List.length words <= i + (List.length chunks - 1) * step + chunkSize)%nat.
Proof.
  intros Hstep. induction fuel as [|fuel IH]; intros i Hi Hfuel; [lia|].
  cbn [chunk_loop].
  apply Nat.ltb_lt in Hi as Hi'. rewrite Hi'.
  destruct (List.length words <=? i + chunkSize)%nat eqn:Hend.
  - apply Nat.leb_le in Hend. eexists. split; [reflexivity|].
    cbn [List.length]. repeat split; try lia.
    intros [|k] Hk; [|lia]. cbn. now rewrite Nat.add_0_r.
  - apply Nat.leb_gt in Hend.
    destruct (IH (i + step)%nat)
      as (chunks & Heq & Hlen & Hnth & Hfull & Hlast & Hreach); [lia | lia |].
    rewrite Heq. eexists. split; [reflexivity|]. cbn [List.length].
    replace (S (List.length chunks) - 1)%nat with (S (List.length chunks - 1)) by lia.
    repeat split; try lia.
    + intros [|k] Hk; cbn [nth].
      * now rewrite Nat.add_0_r.
      * rewrite Hnth by lia. f_equal. f_equal. lia.
    + intros [|k] Hk; [lia|]. specialize (Hfull k). lia.
Qed.

(** Without a step the loop stays on the first window. *)
Lemma chunk_loop_stuck (words : list string) (chunkSize : nat) (fuel : nat) :
  (chunkSize < List.length words)%nat ->
  chunk_loop fuel words chunkSize 0 0 = None.
Proof.
  intros Hlen. induction fuel as [|fuel IH]; [reflexivity|].
  cbn [chunk_loop].
  replace (0 <? List.length words)%nat with true by (symmetry; apply Nat.ltb_lt; lia).
  replace (List.length words <=? 0 + chunkSize)%nat with false
    by (symmetry; apply Nat.leb_gt; lia).
  cbn [Nat.add]. now rewrite IH.
Qed.

(** The call made by [indexPDFs] returns. *)
Lemma chunkText_default_ends (text : string) :
  exists chunks, chunkText text 500 50 = Some chunks /\ chunks <> [].
Proof.
  unfold chunkText. pose proof (split_length text) as Hlen.
  destruct (chunk_loop_spec (split text) 500 (500 - 50))
    with (fuel := S (List.length (split text))) (i := 0%nat)
    as (chunks & Heq & Hn & _); try lia.
  exists chunks. split; [exact Heq|]. destruct chunks; [cbn in Hn; lia | discriminate].
Qed.

Lemma nth_error_window (words : list string) (i chunkSize j : nat) :
  (i <= j < i + chunkSize)%nat ->
  nth_error (window words i chunkSize) (j - i) = nth_error words j.
Proof.
  intros Hj. unfold window.
  rewrite nth_error_firstn.
  replace (j - i <? chunkSize)%nat with true by (symmetry; apply Nat.ltb_lt; lia).
  rewrite nth_error_skipn. f_equal. lia.
Qed.

Lemma pieces_free (gap : bool) (s : string) :
  Forall (fun w => some_char JSString.is_whitespace w = false) (pieces gap s).
Proof.
  revert gap. induction s as [|c s IH]; intros gap; cbn [pieces].
  - repeat constructor.
  - destruct (JSString.is_whitespace c) eqn:Hc.
    + destruct gap; [apply IH|]. constructor; [reflexivity | apply IH].
    + specialize (IH false). destruct (pieces false s) as [|w ws].
      * repeat constructor. cbn. now rewrite Hc.
      * inversion IH; subst. constructor; [|assumption]. cbn. now rewrite Hc.
Qed.

Lemma pieces_one (w : string) :
  some_char JSString.is_whitespace w = false -> pieces false w = [w].
Proof.
  induction w as [|c w IH]; cbn; [reflexivity|].
  intros H. apply orb_false_iff in H as [Hc Hw]. rewrite Hc, IH by exact Hw.
  reflexivity.
Qed.

Lemma pieces_then_space (w t : string) :
  some_char JSString.is_whitespace w = false ->
  pieces false (w ++ String " " t) = w :: pieces true t.
Proof.
  induction w as [|c w IH]; cbn [append some_char pieces].
  - intros _. reflexivity.
  - intros H. apply orb_false_iff in H as [Hc Hw]. rewrite Hc, IH by exact Hw.
    reflexivity.
Qed.

Lemma pieces_gap_word (w t : string) :
  is_word w -> pieces true (w ++ t) = pieces false (w ++ t).
Proof.
  intros [Hne Hfree]. destruct w as [|c w]; [congruence|].
  cbn in Hfree. apply orb_false_iff in Hfree as [Hc _].
  cbn [append pieces]. now rewrite Hc.
Qed.

(** X16.  [chunkText] fails to return exactly when the overlap is not
    smaller than the chunk size and the text has more words than one
    chunk holds: the loop then never advances past the first window. *)
Theorem chunkText_ends (text : string) (chunkSize overlap : nat) :
  chunkText text chunkSize overlap = None <->
  (chunkSize <= overlap /\ chunkSize < List.length (split text))%nat.
Proof.
  unfold chunkText. pose proof (split_length text) as Hw.
  set (words := split text) in *.
  split.
  - intros Hnone.
    destruct (Nat.le_gt_cases chunkSize overlap) as [Hov|Hov].
    + split; [exact Hov|].
      destruct (Nat.le_gt_cases (List.length words) chunkSize) as [Hshort|Hlong];
        [|exact Hlong].
      exfalso. cbn [chunk_loop] in Hnone.
      replace (0 <? List.length words)%nat with true in Hnone
        by (symmetry; apply Nat.ltb_lt; lia).
      replace (List.length words <=? 0 + chunkSize)%nat with true in Hnone
        by (symmetry; apply Nat.leb_le; lia).
      discriminate.
    + exfalso.
      destruct (chunk_loop_spec words chunkSize (chunkSize - overlap)) with
        (fuel := S (List.length words)) (i := 0%nat) as (chunks & Heq & _);
        try lia. congruence.
  - intros [Hov Hlong].
    replace (chunkSize - overlap)%nat with 0%nat by lia.
    now apply chunk_loop_stuck.
Qed.

Lemma chunkText_ends_witness :
  chunkText Shelf.seven 3 3 = None /\ chunkText Shelf.seven 3 1 <> None.
Proof.
  split.
  - apply (proj2 (chunkText_ends Shelf.seven 3 3)).
    change (List.length (split Shelf.seven)) with 7%nat. lia.
  - intros H. apply (proj1 (chunkText_ends Shelf.seven 3 1)) in H. lia.
Defined.

(** X17.  With an overlap smaller than the chunk size, [chunkText]
    returns at least one chunk; chunk [k] is the window of [chunkSize]
    words that starts at word [k * (chunkSize - overlap)], joined by
    single spaces; every chunk but the last is followed by further
    words, and the last window starts inside the text and reaches its
    end. *)
Theorem chunkText_windows (text : string) (chunkSize overlap : nat) :
  (overlap < chunkSize)%nat ->
  exists chunks,
    chunkText text chunkSize overlap = Some chunks /\
    (1 <= List.length chunks)%nat /\
    (forall k, (k < List.length chunks)%nat ->
       nth k chunks EmptyString
       = join (window (split text) (k * (chunkSize - overlap)) chunkSize)) /\
    (forall k, (S k < List.length chunks)%nat ->
       (k * (chunkSize - overlap) + chunkSize < List.length (split text))%nat) /\
    ((List.length chunks - 1) * (chunkSize - overlap) < List.length (split text))%nat /\
    (List.length (split text)
     <= (List.length chunks - 1) * (chunkSize - overlap) + chunkSize)%nat.
Proof.
  intros Hov. pose proof (split_length text) as Hw. unfold chunkText.
  destruct (chunk_loop_spec (split text) chunkSize (chunkSize - overlap))
    with (fuel := S (List.length (split text))) (i := 0%nat)
    as (chunks & Heq & Hlen & Hnth & Hfull & Hlast & Hreach); try lia.
  exists chunks. repeat split; auto.
Qed.

Lemma chunkText_windows_witness :
  exists chunks,
    chunkText Shelf.seven 3 1 = Some chunks /\
    (1 <= List.length chunks)%nat /\
    (forall k, (k < List.length chunks)%nat ->
       nth k chunks EmptyString
       = join (window (split Shelf.seven) (k * (3 - 1)) 3)).
Proof.
  destruct (chunkText_windows Shelf.seven 3 1) as (chunks & H1 & H2 & H3 & _);
    [lia|].
  exists chunks. auto.
Defined.

(** X18.  With an overlap smaller than the chunk size no word is lost:
    every word of the text lies in the window of some returned chunk. *)
Theorem chunkText_covers (text : string) (chunkSize overlap : nat) (j : nat)
    (w : string) :
  (overlap < chunkSize)%nat ->
  nth_error (split text) j = Some w ->
  exists chunks k,
    chunkText text chunkSize overlap = Some chunks /\
    (k < List.length chunks)%nat /\
    nth k chunks EmptyString
    = join (window (split text) (k * (chunkSize - overlap)) chunkSize) /\
    nth_error (window (split text) (k * (chunkSize - overlap)) chunkSize)
      (j - k * (chunkSize - overlap)) = Some w.
Proof.
  intros Hov Hw. pose proof (split_length text) as Hlen.
  assert (Hj : (j < List.length (split text))%nat)
    by (apply nth_error_Some; congruence).
  unfold chunkText.
  destruct (chunk_loop_spec (split text) chunkSize (chunkSize - overlap))
    with (fuel := S (List.length (split text))) (i := 0%nat)
    as (chunks & Heq & Hn & Hnth & Hfull & Hlast & Hreach); try lia.
  set (step := (chunkSize - overlap)%nat) in *.
  exists chunks, (Nat.min (j / step) (List.length chunks - 1)).
  set (k := Nat.min (j / step) (List.length chunks - 1)).
  assert (Hk : (k < List.length chunks)%nat) by (unfold k; lia).
  assert (Hstep : (0 < step)%nat) by (unfold step; lia).
  assert (Hlow : (k * step <= j)%nat).
  { pose proof (Nat.Div0.mul_div_le j step).
    assert (k <= j / step)%nat by (unfold k; lia). nia. }
  assert (Hhigh : (j < k * step + chunkSize)%nat).
  { destruct (Nat.le_gt_cases (List.length chunks - 1) (j / step)) as [Hc|Hc].
    - replace k with (List.length chunks - 1)%nat by (unfold k; lia).
      cbn in Hreach. lia.
    - replace k with (j / step)%nat by (unfold k; lia).
      pose proof (Nat.mul_succ_div_gt j step).
      assert (step <= chunkSize)%nat by (unfold step; lia). nia. }
  split; [exact Heq|]. split; [exact Hk|]. split.
  - rewrite Hnth by exact Hk. reflexivity.
  - rewrite nth_error_window by lia. exact Hw.
Qed.

Lemma chunkText_covers_witness :
  exists chunks k,
    chunkText Shelf.seven 3 1 = Some chunks /\
    (k < List.length chunks)%nat /\
    nth k chunks EmptyString
    = join (window (split Shelf.seven) (k * (3 - 1)) 3) /\
    nth_error (window (split Shelf.seven) (k * (3 - 1)) 3) (5 - k * (3 - 1))
    = Some "f".
Proof.
  apply (chunkText_covers Shelf.seven 3 1 5 "f"); [lia | reflexivity].
Defined.

(** X19.  Two consecutive chunks share exactly [overlap] words: the
    earlier window is full, and its last [overlap] words are the first
    [overlap] words of the next window. *)
Theorem chunks_overlap (text : string) (chunkSize overlap : nat) (k : nat) :
  (overlap < chunkSize)%nat ->
  forall chunks,
    chunkText text chunkSize overlap = Some chunks ->
    (S k < List.length chunks)%nat ->
    List.length (window (split text) (k * (chunkSize - overlap)) chunkSize) = chunkSize /\
    skipn (chunkSize - overlap)
      (window (split text) (k * (chunkSize - overlap)) chunkSize)
    = firstn overlap
        (window (split text) (S k * (chunkSize - overlap)) chunkSize).
Proof.
  intros Hov chunks Hc Hk. pose proof (split_length text) as Hlen.
  unfold chunkText in Hc.
  destruct (chunk_loop_spec (split text) chunkSize (chunkSize - overlap))
    with (fuel := S (List.length (split text))) (i := 0%nat)
    as (chunks' & Heq & Hn & Hnth & Hfull & Hlast & Hreach); try lia.
  rewrite Heq in Hc. injection Hc as ->.
  specialize (Hfull k Hk). cbn [Nat.add] in Hfull.
  set (step := (chunkSize - overlap)%nat) in *.
  unfold window. split.
  - rewrite length_firstn, length_skipn. lia.
  - rewrite skipn_firstn_comm, skipn_skipn, firstn_firstn.
    replace (chunkSize - step)%nat with overlap by (unfold step; lia).
    replace (Nat.min overlap chunkSize) with overlap by lia.
    reflexivity.
Qed.

Lemma chunks_overlap_witness :
  chunkText Shelf.seven 3 1 = Some ["a b c"; "c d e"; "e f g"] /\
  List.length (window (split Shelf.seven) (1 * (3 - 1)) 3) = 3%nat /\
  skipn (3 - 1) (window (split Shelf.seven) (1 * (3 - 1)) 3)
  = firstn 1 (window (split Shelf.seven) (2 * (3 - 1)) 3).
Proof.
  split; [reflexivity|].
  apply (chunks_overlap Shelf.seven 3 1 1) with (chunks := ["a b c"; "c d e"; "e f g"]);
    [lia | reflexivity | cbn [List.length]; lia].
Defined.

(** X20.  A text of at most [chunkSize] words gives one chunk, whatever
    the overlap: its words joined by single spaces. *)
Theorem short_text_one_chunk (text : string) (chunkSize overlap : nat) :
  (List.length (split text) <= chunkSize)%nat ->
  chunkText text chunkSize overlap = Some [join (split text)].
Proof.
  intros Hshort. pose proof (split_length text) as Hlen.
  unfold chunkText. cbn [chunk_loop].
  replace (0 <? List.length (split text))%nat with true
    by (symmetry; apply Nat.ltb_lt; lia).
  replace (List.length (split text) <=? 0 + chunkSize)%nat with true
    by (symmetry; apply Nat.leb_le; lia).
  unfold window. cbn [skipn]. now rewrite firstn_all2.
Qed.

Lemma short_text_one_chunk_witness :
  chunkText Shelf.seven 500 50 = Some [join (split Shelf.seven)] /\
  chunkText Shelf.seven 7 9 = Some ["a b c d e f g"].
Proof.
  split.
  - apply (short_text_one_chunk Shelf.seven 500 50).
    change (List.length (split Shelf.seven)) with 7%nat. lia.
  - apply (short_text_one_chunk Shelf.seven 7 9).
    change (List.length (split Shelf.seven)) with 7%nat. lia.
Defined.

(** X21.  Splitting undoes joining: words (not empty, free of white
    space) joined by single spaces are split into the same words. *)
Theorem split_join (ws : list string) :
  Forall is_word ws -> ws <> [] -> split (join ws) = ws.
Proof.
  unfold split, join. induction 1 as [|w ws Hw Hws IH]; [congruence|]. intros _.
  destruct ws as [|w2 ws].
  - cbn. apply pieces_one, Hw.
  - change (String.concat " " (w :: w2 :: ws))
      with (w ++ String " " (String.concat " " (w2 :: ws))).
    rewrite pieces_then_space by apply Hw.
    f_equal. inversion Hws as [|? ? Hw2 _]; subst.
    assert (Hdec : exists t, String.concat " " (w2 :: ws) = w2 ++ t).
    { destruct ws; cbn [String.concat]; [exists EmptyString | eexists; reflexivity].
      clear. induction w2; cbn; congruence. }
    destruct Hdec as [t Ht]. rewrite Ht, pieces_gap_word by exact Hw2.
    rewrite <- Ht. apply IH. discriminate.
Qed.

Lemma split_join_witness :
  split (join ["Knee"; "surgery"; "excluded."]) = ["Knee"; "surgery"; "excluded."].
Proof.
  apply (split_join ["Knee"; "surgery"; "excluded."]); [|discriminate].
  repeat constructor; discriminate.
Defined.

End ChunkFacts.

(* ================================================================== *)
(** * Properties of [indexPDFs]                                        *)
(* ================================================================== *)

Section IndexFacts.

Import Indexer.
Local Open Scope string_scope.

(** The records of one file, in the order of its chunks. *)
Lemma embed_chunks_spec (L : Library) (file : string) :
  forall chunks i records,
    embed_chunks L file i chunks = Normal records ->
    List.length records = List.length chunks /\
    forall k r, nth_error records k = Some r ->
      Fragment.dataset r = file /\
      Fragment.id r = file ++ "::" ++ decimal (i + k + 1) /\
      nth_error chunks k = Some (Fragment.text r) /\
      embed L (Fragment.text r) = Normal (Fragment.embedding r).
Proof.
  induction chunks as [|chunk chunks IH]; intros i records; cbn [embed_chunks].
  - intros [= <-]. split; [reflexivity|]. intros [|k] r; discriminate.
  - destruct (embed L chunk) as [embedding|] eqn:He; [|discriminate]. cbn [bind].
    destruct (embed_chunks L file (S i) chunks) as [recs|] eqn:Hr; [|discriminate].
    cbn [bind]. intros [= <-].
    destruct (IH (S i) recs Hr) as [Hlen Hnth].
    split; [cbn; now rewrite Hlen|].
    intros [|k] r; cbn [nth_error].
    + intros [= <-]. cbn. rewrite Nat.add_0_r. repeat split. exact He.
    + intros Hk. destruct (Hnth k r Hk) as (H1 & H2 & H3 & H4).
      repeat split; auto. rewrite H2. do 3 f_equal. lia.
Qed.

Lemma decimal_inj (n m : nat) : decimal n = decimal m -> n = m.
Proof.
  unfold decimal. intros H. apply Unsigned.to_uint_inj.
  apply (f_equal NilEmpty.uint_of_string) in H. rewrite !NilEmpty.usu in H.
  congruence.
Qed.

Lemma append_inj_l (p a b : string) : p ++ a = p ++ b -> a = b.
Proof. induction p; cbn; [auto|]. intros [= H]. auto. Qed.

Lemma file_ids_distinct (L : Library) (file : string) (chunks : list string)
    (records : list Fragment.t) :
  embed_chunks L file 0 chunks = Normal records ->
  NoDup (map Fragment.id records).
Proof.
  intros Hr. destruct (embed_chunks_spec L file chunks 0 records Hr) as [_ Hnth].
  apply (NoDup_nth_error (map Fragment.id records)).
  intros i j Hi Heq. rewrite length_map in Hi.
  rewrite !nth_error_map in Heq.
  destruct (nth_error records i) as [ri|] eqn:Hri;
    [|apply nth_error_None in Hri; lia].
  destruct (nth_error records j) as [rj|] eqn:Hrj; [|discriminate].
  cbn in Heq. injection Heq as Heq.
  destruct (Hnth i ri Hri) as (_ & Hidi & _). destruct (Hnth j rj Hrj) as (_ & Hidj & _).
  rewrite Hidi, Hidj in Heq.
  apply append_inj_l, append_inj_l, decimal_inj in Heq. lia.
Qed.

Lemma uint_no_colon (d : uint) :
  some_char (Ascii.eqb ":") (NilEmpty.string_of_uint d) = false.
Proof. induction d; cbn; auto. Qed.

Lemma decimal_no_colon (n : nat) : some_char (Ascii.eqb ":") (decimal n) = false.
Proof. apply uint_no_colon. Qed.

Lemma append_split (a b c d : string) :
  a ++ b = c ++ d -> (String.length c <= String.length a)%nat ->
  exists x, a = c ++ x /\ d = x ++ b.
Proof.
  revert a. induction c as [|ch c IH]; intros a Heq Hlen; cbn in *.
  - exists a. split; [reflexivity | now symmetry].
  - destruct a as [|ah a]; cbn in *; [lia|].
    injection Heq as -> Heq. destruct (IH a Heq) as (x & -> & ->); [lia|].
    exists x. split; reflexivity.
Qed.

(** A number holds no colon, so it cannot end in an identifier. *)
Lemma id_tail (x d1 d2 : string) :
  some_char (Ascii.eqb ":") d2 = false ->
  x ++ "::" ++ d1 = d2 -> False.
Proof.
  intros Hfree Heq. rewrite <- Heq in Hfree.
  rewrite some_char_app in Hfree. apply orb_false_iff in Hfree as [_ H].
  cbn in H. discriminate.
Qed.

Lemma id_longer (f1 f2 d1 d2 : string) :
  some_char (Ascii.eqb ":") d2 = false ->
  (String.length f2 <= String.length f1)%nat ->
  f1 ++ "::" ++ d1 = f2 ++ "::" ++ d2 -> f1 = f2 /\ d1 = d2.
Proof.
  intros H2 Hlen Heq.
  destruct (append_split f1 ("::" ++ d1) f2 ("::" ++ d2) Heq Hlen) as (x & -> & Hx).
  destruct x as [|c1 [|c2 x]]; cbn in Hx.
  - injection Hx as ->. split; [now rewrite append_empty | reflexivity].
  - exfalso. injection Hx as _ ->. cbn in H2. discriminate.
  - exfalso. injection Hx as _ _ Hd. symmetry in Hd. now apply id_tail in Hd.
Qed.

(** An identifier determines its file and its number, even when the
    file name itself holds colons. *)
Lemma id_inj (f1 f2 : string) (n m : nat) :
  f1 ++ "::" ++ decimal n = f2 ++ "::" ++ decimal m -> f1 = f2 /\ n = m.
Proof.
  intros Heq.
  destruct (Nat.le_ge_cases (String.length f2) (String.length f1)) as [Hl|Hl].
  - destruct (id_longer f1 f2 _ _ (decimal_no_colon m) Hl Heq) as [-> Hd].
    split; [reflexivity | now apply decimal_inj].
  - symmetry in Heq.
    destruct (id_longer f2 f1 _ _ (decimal_no_colon n) Hl Heq) as [-> Hd].
    split; [reflexivity | symmetry; now apply decimal_inj].
Qed.

Lemma chunks_of_nonempty (text : string) : chunks_of text <> [].
Proof.
  unfold chunks_of.
  destruct (chunkText_default_ends (cleanText text)) as (chunks & -> & Hne).
  exact Hne.
Qed.

Lemma index_files_spec (L : Library) :
  forall files records,
    index_files L files = Normal records ->
    Forall (labelled L files) records /\
    (forall f, In f files -> exists r, In r records /\ Fragment.dataset r = f).
Proof.
  induction files as [|file files IH]; intros records; cbn [index_files].
  - intros [= <-]. split; [constructor | intros f []].
  - destruct (pdf_text L file) as [text|] eqn:Ht; [|discriminate]. cbn [bind].
    destruct (embed_chunks L file 0 (chunks_of text)) as [recs|] eqn:Hr;
      [|discriminate]. cbn [bind].
    destruct (index_files L files) as [more|] eqn:Hm; [|discriminate]. cbn [bind].
    intros [= <-]. destruct (IH more eq_refl) as [Hall Hsome].
    destruct (embed_chunks_spec L file _ 0 recs Hr) as [Hlen Hnth].
    split.
    + apply Forall_app. split.
      * apply Forall_forall. intros r Hin. apply In_nth_error in Hin as [k Hk].
        destruct (Hnth k r Hk) as (Hd & Hid & Hc & He).
        unfold labelled. rewrite Hd. repeat split.
        -- now left.
        -- exists k. rewrite Hid. do 3 f_equal. lia.
        -- exists text. split; [exact Ht|]. eapply nth_error_In; eauto.
        -- exact He.
      * eapply Forall_impl; [|exact Hall]. intros r (H1 & H2 & H3 & H4).
        repeat split; auto. now right.
    + intros f [<-|Hf].
      * pose proof (chunks_of_nonempty text) as Hne.
        destruct recs as [|r recs].
        -- destruct (chunks_of text); [congruence | discriminate Hlen].
        -- exists r. split; [now left|]. apply (Hnth 0%nat r eq_refl).
      * destruct (Hsome f Hf) as (r & Hin & Hd). exists r. split; [|exact Hd].
        apply in_or_app. now right.
Qed.

Lemma index_files_ids (L : Library) :
  forall files records,
    NoDup files ->
    index_files L files = Normal records ->
    NoDup (map Fragment.id records).
Proof.
  induction files as [|file files IH]; intros records Hnd; cbn [index_files].
  - intros [= <-]. constructor.
  - destruct (pdf_text L file) as [text|] eqn:Ht; [|discriminate]. cbn [bind].
    destruct (embed_chunks L file 0 (chunks_of text)) as [recs|] eqn:Hr;
      [|discriminate]. cbn [bind].
    destruct (index_files L files) as [more|] eqn:Hm; [|discriminate]. cbn [bind].
    intros [= <-]. inversion Hnd as [|? ? Hnotin Hnd']; subst.
    rewrite map_app. apply NoDup_app.
    + eapply file_ids_distinct; eauto.
    + now apply IH.
    + intros i Hi1 Hi2.
      apply in_map_iff in Hi1 as (r1 & <- & Hr1).
      apply in_map_iff in Hi2 as (r2 & Heq & Hr2).
      destruct (embed_chunks_spec L file _ 0 recs Hr) as [_ Hnth].
      apply In_nth_error in Hr1 as [k Hk]. destruct (Hnth k r1 Hk) as (Hd1 & Hid1 & _).
      destruct (index_files_spec L files more Hm) as [Hall _].
      rewrite Forall_forall in Hall. destruct (Hall r2 Hr2) as (Hin & [k2 Hid2] & _).
      rewrite Hid1, Hid2 in Heq. apply id_inj in Heq as [Heq _].
      apply Hnotin. now rewrite <- Heq.
Qed.

Lemma embed_chunks_aborts (L : Library) (file : string) (chunk : string) (e : exn) :
  embed L chunk = Throw e ->
  forall chunks i, In chunk chunks ->
    exists e', embed_chunks L file i chunks = Throw e'.
Proof.
  intros He. induction chunks as [|c chunks IH]; intros i; [intros []|].
  cbn [embed_chunks]. intros [->|Hin].
  - rewrite He. cbn. eauto.
  - destruct (embed L c); cbn [bind]; [|eauto].
    destruct (IH (S i) Hin) as [e' ->]. cbn. eauto.
Qed.

Lemma index_files_aborts (L : Library) (f : string) :
  (exists e, pdf_text L f = Throw e) \/
  (exists text chunk e, pdf_text L f = Normal text /\ In chunk (chunks_of text) /\
                        embed L chunk = Throw e) ->
  forall files, In f files -> exists e', index_files L files = Throw e'.
Proof.
  intros Hbad. induction files as [|file files IH]; [intros []|].
  cbn [index_files]. intros [->|Hin].
  - destruct Hbad as [[e ->]|(text & chunk & e & -> & Hc & He)]; cbn [bind]; [eauto|].
    destruct (embed_chunks_aborts L f chunk e He _ 0%nat Hc) as [e' ->]. cbn. eauto.
  - destruct (pdf_text L file); cbn [bind]; [|eauto].
    destruct (embed_chunks L file 0 _); cbn [bind]; [|eauto].
    destruct (IH Hin) as [e' ->]. cbn. eauto.
Qed.

Lemma shelf_index : indexPDFs Shelf.library = Normal Shelf.index.
Proof. reflexivity. Qed.

(** X22.  Every record the indexer writes is labelled by a file of the
    directory whose name ends in ".pdf" in any letter case, carries the
    identifier [file::n] with [n] at least 1, holds a chunk of the
    cleaned text of that file and the embedding returned for that
    chunk; and every such file of the directory has a record. *)
Theorem indexPDFs_records (L : Library) (records : list Fragment.t) :
  indexPDFs L = Normal records ->
  exists names,
    readdir L = Normal names /\
    Forall (fun r => labelled L names r /\ is_pdf (Fragment.dataset r) = true) records /\
    (forall f, In f names -> is_pdf f = true ->
               exists r, In r records /\ Fragment.dataset r = f).
Proof.
  unfold indexPDFs. destruct (readdir L) as [names|]; [|discriminate]. cbn [bind].
  intros Hi. exists names. split; [reflexivity|].
  destruct (index_files_spec L _ records Hi) as [Hall Hsome]. split.
  - eapply Forall_impl; [|exact Hall]. intros r (H1 & H2 & H3 & H4).
    apply filter_In in H1 as [H1 Hpdf]. repeat split; auto.
  - intros f Hf Hpdf. apply Hsome. apply filter_In. auto.
Qed.

Lemma indexPDFs_records_witness :
  exists names,
    readdir Shelf.library = Normal names /\
    Forall (fun r => labelled Shelf.library names r
                     /\ is_pdf (Fragment.dataset r) = true) Shelf.index /\
    (forall f, In f names -> is_pdf f = true ->
               exists r, In r Shelf.index /\ Fragment.dataset r = f).
Proof.
  apply (indexPDFs_records Shelf.library Shelf.index). reflexivity.
Defined.

(** X23.  The identifiers of the written records are pairwise distinct
    (the directory listing holds no name twice). *)
Theorem index_ids_distinct (L : Library) (names : list string)
    (records : list Fragment.t) :
  readdir L = Normal names -> NoDup names ->
  indexPDFs L = Normal records ->
  NoDup (map Fragment.id records).
Proof.
  intros Hn Hnd. unfold indexPDFs. rewrite Hn. cbn [bind].
  apply index_files_ids. now apply NoDup_filter.
Qed.

Lemma index_ids_distinct_witness :
  NoDup (map Fragment.id Shelf.index).
Proof.
  apply (index_ids_distinct Shelf.library Shelf.names Shelf.index);
    [reflexivity | | reflexivity].
  repeat constructor; cbn; intuition discriminate.
Defined.

(** X24.  Nothing is written when a document fails: if some ".pdf"
    file of the directory cannot be parsed, or the embedding of one of
    its chunks fails, the run ends in an error and no index results. *)
Theorem indexing_is_all_or_nothing (L : Library) (names : list string) (f : string) :
  readdir L = Normal names -> In f names -> is_pdf f = true ->
  (exists e, pdf_text L f = Throw e) \/
  (exists text chunk e, pdf_text L f = Normal text /\ In chunk (chunks_of text) /\
                        embed L chunk = Throw e) ->
  exists e', indexPDFs L = Throw e'.
Proof.
  intros Hn Hf Hpdf Hbad. unfold indexPDFs. rewrite Hn. cbn [bind].
  apply (index_files_aborts L f Hbad). apply filter_In. auto.
Qed.

Lemma indexing_is_all_or_nothing_witness :
  exists e', indexPDFs Shelf.damaged = Throw e'.
Proof.
  apply (indexing_is_all_or_nothing Shelf.damaged ["policy.pdf"; "scan.pdf"] "scan.pdf");
    [reflexivity | right; left; reflexivity | reflexivity |].
  left. eexists. reflexivity.
Defined.

End IndexFacts.

(* ================================================================== *)
(** * The cleaned text and the file filter                             *)
(* ================================================================== *)

Section CleanFacts.

Import Indexer.
Local Open Scope string_scope.

Lemma newlines_to_space_free (in_run : bool) (s : string) :
  some_char (Ascii.eqb "010"%char) (newlines_to_space in_run s) = false.
Proof.
  revert in_run. induction s as [|c s IH]; intros in_run; [reflexivity|].
  cbn [newlines_to_space]. destruct (Ascii.eqb c "010"%char) eqn:Hc.
  - destruct in_run; [apply IH|]. cbn [some_char]. now rewrite IH.
  - cbn [some_char]. now rewrite Ascii.eqb_sym, Hc, IH.
Qed.

Lemma trim_end_cons (c : ascii) (r : string) :
  JSString.trim_end (String c r)
  = match JSString.trim_end r with
    | EmptyString =>
        if JSString.is_whitespace c then EmptyString else String c EmptyString
    | String d r' => String c (String d r')
    end.
Proof. reflexivity. Qed.

Lemma trim_end_fixed (s : string) :
  JSString.trim_end (JSString.trim_end s) = JSString.trim_end s.
Proof.
  induction s as [|c s IH]; [reflexivity|]. rewrite (trim_end_cons c s).
  destruct (JSString.trim_end s) as [|d r] eqn:Hs.
  - destruct (JSString.is_whitespace c) eqn:Hc; [reflexivity|].
    cbn. now rewrite Hc.
  - now rewrite (trim_end_cons c (String d r)), IH.
Qed.

(** A trimmed text is empty or starts with a character that is not
    white space. *)
Lemma trim_head (s : string) :
  JSString.trim s = EmptyString \/
  exists c r, JSString.trim s = String c r /\ JSString.is_whitespace c = false.
Proof.
  unfold JSString.trim. induction s as [|c s IH]; [now left|].
  cbn [JSString.trim_start]. destruct (JSString.is_whitespace c) eqn:Hc; [exact IH|].
  right. destruct (trim_end_solid c s Hc) as [r' ->]. eauto.
Qed.

(** The pieces of a text without trailing white space: none is empty
    after the first, and the first is empty only for a text that starts
    with white space outside a run. *)
Lemma pieces_solid (s : string) :
  forall gap,
    JSString.trim_end s = s -> s <> EmptyString ->
    Forall (fun w => w <> EmptyString) (tl (pieces gap s)) /\
    (hd EmptyString (pieces gap s) = EmptyString ->
     gap = false /\ exists c r, s = String c r /\ JSString.is_whitespace c = true).
Proof.
  induction s as [|c s IH]; intros gap Hfix Hne; [congruence|].
  assert (Htail : s = EmptyString \/ (JSString.trim_end s = s /\ s <> EmptyString)).
  { rewrite trim_end_cons in Hfix.
    destruct (JSString.trim_end s) as [|a r0] eqn:Hs.
    - left. destruct (JSString.is_whitespace c); [discriminate Hfix|].
      now injection Hfix.
    - right. injection Hfix as <-. split; [reflexivity | discriminate]. }
  cbn [pieces]. destruct (JSString.is_whitespace c) eqn:Hc.
  - destruct Htail as [->|[Hs Hsne]].
    + cbn in Hfix. rewrite Hc in Hfix. discriminate.
    + destruct (IH true Hs Hsne) as [Ht Hh]. destruct gap.
      * split; [exact Ht|]. intros Hhd. now destruct (Hh Hhd).
      * cbn [tl hd]. split; [|intros _; eauto].
        destruct (pieces true s) as [|w ws] eqn:Hp;
          [now apply pieces_nonempty in Hp|].
        constructor; [|exact Ht]. intros ->. now destruct (Hh eq_refl).
  - destruct Htail as [->|[Hs Hsne]].
    + cbn. split; [constructor | discriminate].
    + destruct (IH false Hs Hsne) as [Ht _].
      destruct (pieces false s) as [|w ws]; cbn [tl hd]; split;
        try discriminate; [constructor | exact Ht].
Qed.

Lemma toLowerCase_app (a b : string) :
  toLowerCase (a ++ b) = toLowerCase a ++ toLowerCase b.
Proof. induction a; cbn; congruence. Qed.

Lemma toLowerCase_length (s : string) :
  String.length (toLowerCase s) = String.length s.
Proof. induction s; cbn; congruence. Qed.

Lemma toLowerCase_drop (n : nat) (s : string) :
  toLowerCase (JSString.drop n s) = JSString.drop n (toLowerCase s).
Proof.
  revert s. induction n as [|n IH]; intros [|c s]; cbn; try reflexivity. apply IH.
Qed.

Lemma take_drop (n : nat) (s : string) :
  s = substring 0 n s ++ JSString.drop n s.
Proof.
  revert s. induction n as [|n IH]; intros [|c s]; cbn; try reflexivity.
  now rewrite <- IH.
Qed.

(** X25.  The text handed to [chunkText] holds no line feed, and it is
    empty or made of proper words: every piece [split] finds in it is
    not empty and free of white space. *)
Theorem clean_text_words (text : string) :
  some_char (Ascii.eqb "010"%char) (cleanText text) = false /\
  (cleanText text = EmptyString \/ Forall is_word (split (cleanText text))).
Proof.
  unfold cleanText. split.
  - unfold JSString.trim.
    apply some_char_trim_end, some_char_trim_start, newlines_to_space_free.
  - set (t := newlines_to_space false text).
    destruct (trim_head t) as [He|(c & r & He & Hc)]; [now left|]. right.
    assert (Hfix : JSString.trim_end (JSString.trim t) = JSString.trim t)
      by apply trim_end_fixed.
    assert (Hne : JSString.trim t <> EmptyString) by (rewrite He; discriminate).
    destruct (pieces_solid _ false Hfix Hne) as [Ht Hh].
    pose proof (pieces_free false (JSString.trim t)) as Hfree.
    unfold split. destruct (pieces false (JSString.trim t)) as [|w ws] eqn:Hp;
      [constructor|].
    cbn [tl hd] in Ht, Hh. inversion Hfree as [|? ? Hw Hws]; subst.
    constructor.
    + split; [|exact Hw]. intros ->.
      destruct (Hh eq_refl) as [_ (c' & r' & Heq & Hc')].
      rewrite He in Heq. injection Heq as <- <-. congruence.
    + clear Hp. induction ws as [|w' ws IHws]; constructor;
        inversion Ht; inversion Hws; subst; [split; assumption | auto].
Qed.

(** X26.  A directory entry is indexed exactly when it ends with four
    characters that read ".pdf" once lowered: the test ignores the
    letter case and looks at nothing but the end of the name. *)
Theorem is_pdf_iff (f : string) :
  is_pdf f = true <->
  exists stem ext, f = stem ++ ext /\ toLowerCase ext = ".pdf".
Proof.
  unfold is_pdf, endsWith. split.
  - intros H. apply andb_true_iff in H as [Hlen Heq].
    apply String.eqb_eq in Heq.
    exists (substring 0 (String.length (toLowerCase f) - String.length ".pdf") f),
           (JSString.drop (String.length (toLowerCase f) - String.length ".pdf") f).
    split; [apply take_drop|]. now rewrite toLowerCase_drop.
  - intros (stem & ext & -> & Hext).
    rewrite toLowerCase_app, Hext, length_app_string.
    replace (String.length (toLowerCase stem) + String.length ".pdf"
             - String.length ".pdf")%nat
      with (String.length (toLowerCase stem)) by lia.
    rewrite drop_app. apply andb_true_iff. split; [|reflexivity].
    apply Nat.leb_le. lia.
Qed.

Lemma is_pdf_iff_witness :
  is_pdf "Claims.PDF" = true /\ is_pdf "policy.pdf.bak" = false.
Proof.
  split.
  - apply (proj2 (is_pdf_iff "Claims.PDF")). exists "Claims", ".PDF".
    split; reflexivity.
  - destruct (is_pdf "policy.pdf.bak") eqn:H; [|reflexivity].
    apply (proj1 (is_pdf_iff "policy.pdf.bak")) in H.
    destruct H as (stem & ext & Hf & Hext).
    assert (Hl : String.length ext = 4%nat)
      by (rewrite <- toLowerCase_length, Hext; reflexivity).
    destruct ext as [|e1 [|e2 [|e3 [|e4 [|e5 ext]]]]]; try discriminate Hl.
    apply (f_equal String.length) in Hf as Hlen.
    rewrite length_app_string in Hlen. cbn [String.length] in Hlen.
    do 11 (destruct stem as [|? stem]; [try (cbn in Hlen; lia)|]);
      [|cbn in Hlen; lia].
    cbn in Hf. injection Hf as _ _ _ _ _ _ _ _ _ _ <- <- <- <-.
    discriminate Hext.
Defined.

End CleanFacts.
